(** * Fan analytics: segmentation, staging and the profile cache

    A shallow embedding of [src/segmentation.py], [src/stage_segmentation.py]
    and [src/fan_profiler.py], and the properties of the conversation
    segmenter, the stage assigner, the profile cache and the batch profiler.

    Conventions of the embedding.
    - A pandas DataFrame is the list of its rows, in row order.  A row keeps
      its index label ([index]), which [sort_values], boolean masks and
      [groupby] carry along unchanged.
    - A timestamp is the integer number of nanoseconds since the epoch, the
      representation pandas uses for [datetime64[ns]]; a [Timedelta] is a
      difference of such numbers.  Timestamps are taken as already parsed
      ([pd.to_datetime]) and inside the range where no overflow is raised.
    - Strings are byte strings (the UTF-8 encoding of the Python [str]);
      their lexicographic order is the order of Python strings.
    - The [purchase] column is boolean.  On a boolean column line 32 of
      [segmentation.py] ([astype(str).str.upper().map(...)]) is the
      identity, and [stage_segmentation.py] compares the column with [True]
      as it is. *)

From Stdlib Require Import ZArith List Ascii String Lia Permutation Sorted.
From Stdlib Require Import DecimalString DecimalNat.
From stdpp Require Import base numbers gmap strings list sorting.

Local Open Scope Z_scope.

(** ** Generic helpers *)

Section isort.
Context {A : Type} (le : A → A → bool).

(** Insertion in front of the first element that is not smaller: the
    inserted element precedes its ties. *)
Fixpoint insert_sorted (x : A) (l : list A) : list A :=
  match l with
  | [] => [x]
  | y :: l' => if le x y then x :: y :: l' else y :: insert_sorted x l'
  end.

(** The unique stable sort of [l] for [le]: elements with equal keys keep
    their input order. *)
Definition stable_sort (l : list A) : list A := foldr insert_sorted [] l.
End isort.

(** ** The event log *)

Record Event := {
  index : Z;
  fan_id : string;
  model_id : string;
  timestamp : Z;
  message_text : option string;
  purchase : bool;
  is_system : bool
}.

Global Instance Event_eq_dec : EqDecision Event.
Proof. solve_decision. Defined.

(** [df['fan_id'].astype(str) + "_" + df['model_id'].astype(str)] *)
Definition fan_model_id (e : Event) : string :=
  fan_id e +:+ "_" +:+ model_id e.

(** A row of a fan's message without text, for the examples. *)
Definition mk (i : Z) (f m : string) (t : Z) (p : bool) : Event :=
  {| index := i; fan_id := f; model_id := m; timestamp := t;
     message_text := None; purchase := p; is_system := false |}.

Definition hours (h : Z) : Z := h * 3600 * 1000000000.
Definition days (d : Z) : Z := d * 24 * 3600 * 1000000000.

Module Segmentation.

(** Order of [sort_values(by=['fan_model_id', 'timestamp'])]:
    lexicographic on the two columns. *)
Definition key_le (a b : Event) : bool :=
  if decide (fan_model_id a = fan_model_id b)
  then bool_decide (timestamp a ≤ timestamp b)
  else bool_decide (String.le (fan_model_id a) (fan_model_id b)).

(** [sort_values] on several columns is a stable sort (the [kind] option
    only applies to a single column). *)
Definition sort_values (df : list Event) : list Event :=
  stable_sort key_le df.

(** [preprocess]: drop the system rows, then sort. *)
Definition preprocess (df : list Event) : list Event :=
  sort_values (filter (λ e, is_system e = false) df).

(** The columns [assign_conversations] adds to a row. *)
Record ConvoRow := {
  event : Event;
  prev_model : option string;
  prev_time : option Z;
  new_convo : bool;
  convo_id : nat;
  conversation_id : string
}.

(** What the walk remembers of a fan-model group: the model and timestamp
    of its latest row (for [shift(1)]) and the running [cumsum]. *)
Record GroupState := {
  last_model : string;
  last_time : Z;
  running : nat
}.

(** [str] of a non-negative integer. *)
Definition str_of_nat (n : nat) : string :=
  NilEmpty.string_of_uint (Nat.to_uint n).

(** One row of [assign_conversations], given the state of its group
    ([None] for the first row of a group, where [shift(1)] yields NaN/NaT).
    - [model_switch = df['model_id'] != df['prev_model']] is True against
      NaN;
    - [time_gap = time_diff > timedelta(hours=4)] is False against NaT. *)
Definition assign_row (prev : option GroupState) (e : Event) : ConvoRow :=
  let model_switch :=
    match prev with
    | Some g => bool_decide (model_id e ≠ last_model g)
    | None => true
    end in
  let time_gap :=
    match prev with
    | Some g => bool_decide (timestamp e - last_time g > hours 4)
    | None => false
    end in
  let new := model_switch || time_gap in
  let before := match prev with Some g => running g | None => 0%nat end in
  let cid := (before + (if new then 1 else 0))%nat in
  {| event := e;
     prev_model := last_model <$> prev;
     prev_time := last_time <$> prev;
     new_convo := new;
     convo_id := cid;
     conversation_id := fan_model_id e +:+ "_C" +:+ str_of_nat cid |}.

Definition state_after (r : ConvoRow) : GroupState :=
  {| last_model := model_id (event r);
     last_time := timestamp (event r);
     running := convo_id r |}.

(** [assign_conversations] as one pass over the rows: the group-wise
    [shift(1)] and [cumsum] read and update the state of the row's group. *)
Fixpoint walk (st : gmap string GroupState) (df : list Event) : list ConvoRow :=
  match df with
  | [] => []
  | e :: df' =>
      let r := assign_row (st !! fan_model_id e) e in
      r :: walk (<[fan_model_id e := state_after r]> st) df'
  end.

Definition assign_conversations (df : list Event) : list ConvoRow :=
  walk ∅ df.

(** The same walk over the rows of a single group. *)
Fixpoint walk_group (prev : option GroupState) (g : list Event) : list ConvoRow :=
  match g with
  | [] => []
  | e :: g' =>
      let r := assign_row prev e in
      r :: walk_group (Some (state_after r)) g'
  end.

(** The conversation assignment: which conversation each event is in. *)
Definition assignments (rows : list ConvoRow) : list (Event * string) :=
  map (λ r, (event r, conversation_id r)) rows.

Definition n_conversations (rows : list ConvoRow) : nat :=
  length (remove_dups (map conversation_id rows)).

(** Two rows tie when the sort cannot tell them apart and they name the
    same model. *)
Definition tied (a b : Event) : Prop :=
  fan_model_id a = fan_model_id b ∧ timestamp a = timestamp b
  ∧ model_id a = model_id b.

(** Lists that differ by exchanging neighbouring tied rows. *)
Inductive tie_perm : list Event → list Event → Prop :=
| tie_nil : tie_perm [] []
| tie_skip x l l' : tie_perm l l' → tie_perm (x :: l) (x :: l')
| tie_swap x y l : tied x y → tie_perm (x :: y :: l) (y :: x :: l)
| tie_trans l1 l2 l3 : tie_perm l1 l2 → tie_perm l2 l3 → tie_perm l1 l3.

(** The integer- and boolean-valued columns of [compute_features].  The
    float-valued ones ([purchase_rate], [duration_hours],
    [time_to_first_purchase_hrs]) are left out. *)
Record Features := {
  f_conversation_id : string;
  f_fan_model_id : string;
  message_count : Z;
  revenue : Z;
  purchase_count : Z;
  messages_before_first_purchase : Z;
  days_between_first_last_purchase : Z;
  active : bool;
  days_since_last_message : Z
}.

Definition max_timestamp (l : list Z) : Z :=
  match l with
  | [] => 0
  | t :: l' => foldr Z.max t l'
  end.

(** [Timedelta.days]: whole days, rounded down. *)
Definition td_days (delta : Z) : Z := delta `div` days 1.

(** The body of the loop of [compute_features] for one conversation.
    [global_max] is [df['timestamp'].max()].  A group of a [groupby] is
    never empty; for the empty list the function yields [None]. *)
Definition features_of_group (global_max : Z) (convo : string)
    (group : list ConvoRow) : option Features :=
  match group with
  | [] => None
  | first :: _ =>
      let purchases := Z.of_nat (length (filter (λ r, purchase (event r) = true) group)) in
      let purchase_msgs := filter (λ r, purchase (event r) = true) group in
      let days_between :=
        match purchase_msgs, last purchase_msgs with
        | p0 :: _ :: _, Some pn =>
            td_days (timestamp (event pn) - timestamp (event p0))
        | _, _ => 0
        end in
      let last_msg_time := max_timestamp (map (λ r, timestamp (event r)) group) in
      let msgs_before_first_purchase :=
        match purchase_msgs with
        | p0 :: _ => index (event p0) - index (event first)
        | [] => Z.of_nat (length group)
        end in
      Some {| f_conversation_id := convo;
              f_fan_model_id := fan_model_id (event first);
              message_count := Z.of_nat (length group);
              revenue := purchases;
              purchase_count := purchases;
              messages_before_first_purchase := msgs_before_first_purchase;
              days_between_first_last_purchase := days_between;
              active := bool_decide (td_days (global_max - last_msg_time) < 2);
              days_since_last_message := td_days (global_max - last_msg_time) |}
  end.

(** The keys of a [groupby] on a string column, in the order pandas
    iterates them: sorted, each once. *)
Definition groupby_keys (keys : list string) : list string :=
  stable_sort String.leb (remove_dups keys).

Definition compute_features (df : list ConvoRow) : list Features :=
  let global_max := max_timestamp (map (λ r, timestamp (event r)) df) in
  omap (λ c, features_of_group global_max c
               (filter (λ r, conversation_id r = c) df))
       (groupby_keys (map conversation_id df)).

(** What the feature is named after: the number of rows of the
    conversation that come before its first purchase row. *)
Fixpoint rows_before_first_purchase (group : list ConvoRow) : Z :=
  match group with
  | [] => 0
  | r :: group' =>
      if purchase (event r) then 0 else 1 + rows_before_first_purchase group'
  end.

Definition sum_Z (l : list Z) : Z := foldr Z.add 0 l.

(** The index labels of the rows grow by one from each row to the next. *)
Definition consecutive_labels (rows : list ConvoRow) : Prop :=
  ∀ (i : nat) r r', rows !! i = Some r → rows !! S i = Some r' →
    index (event r') = index (event r) + 1.

End Segmentation.

Import Segmentation.

(** ** Stage segmentation ([stage_segmentation.py]) *)

Module StageSegmentation.

Inductive Stage := stage_1 | stage_2 | stage_3.

Global Instance Stage_eq_dec : EqDecision Stage.
Proof. solve_decision. Defined.

(** [load_data]: no filter of system rows and no normalisation of the
    purchase column here; the same sort as in [preprocess]. *)
Definition load_data (raw : list Event) : list Event :=
  Segmentation.sort_values raw.

Definition ts_le (a b : Event) : bool :=
  bool_decide (timestamp a ≤ timestamp b).

(** [group.sort_values(by="timestamp")].  On one column pandas uses an
    unstable sort by default, so the order of rows with equal timestamps is
    not fixed by the source; the stable order is taken here, and the
    properties below are about the label of each row, which does not depend
    on that order. *)
Definition sort_by_timestamp (group : list Event) : list Event :=
  stable_sort ts_le group.

Definition label (s : Stage) (part : list Event) : list (Event * Stage) :=
  map (λ e, (e, s)) part.

(** The body of the loop of [assign_stages] for one group. *)
Definition assign_stages_group (group : list Event) : list (Event * Stage) :=
  let group := sort_by_timestamp group in
  let purchase_times := map timestamp (filter (λ e, purchase e = true) group) in
  match purchase_times, last purchase_times with
  | first_purchase :: _, Some last_purchase =>
      let stage1 := filter (λ e, timestamp e ≤ first_purchase) group in
      let stage2 :=
        if decide (first_purchase ≠ last_purchase)
        then filter (λ e, first_purchase < timestamp e ∧ timestamp e ≤ last_purchase) group
        else [] in
      let stage3 := filter (λ e, timestamp e > last_purchase) group in
      label stage_1 stage1 ++ label stage_2 stage2 ++ label stage_3 stage3
  | _, _ => label stage_1 group
  end.

(** [assign_stages]: one group per [fan_model_id], concatenated. *)
Definition assign_stages (df : list Event) : list (Event * Stage) :=
  flat_map (λ k, assign_stages_group (filter (λ e, fan_model_id e = k) df))
           (groupby_keys (map fan_model_id df)).

(** The stage of an event relative to a list of purchase timestamps, as the
    specification words it: no purchase, stage_1; otherwise against the
    earliest and the latest purchase. *)
Definition stage_of (purchase_times : list Z) (t : Z) : Stage :=
  match purchase_times with
  | [] => stage_1
  | p :: ps =>
      let first := foldr Z.min p ps in
      let last := foldr Z.max p ps in
      if decide (t ≤ first) then stage_1
      else if decide (t ≤ last) then stage_2 else stage_3
  end.

(** The three classes of timestamps around a first and a last purchase. *)
Definition classify (first last t : Z) : Stage :=
  if decide (t ≤ first) then stage_1
  else if decide (t ≤ last) then stage_2 else stage_3.

(** Stage assignment the way the specification describes it: one group per
    conversation of the segmenter, staged on its own purchases. *)
Definition assign_stages_per_conversation (df : list Event) : list (Event * Stage) :=
  let rows := assign_conversations (preprocess df) in
  flat_map (λ c, assign_stages_group
                   (map event (filter (λ r, conversation_id r = c) rows)))
           (groupby_keys (map conversation_id rows)).

Definition stage_rank (s : Stage) : nat :=
  match s with stage_1 => 1 | stage_2 => 2 | stage_3 => 3 end.

End StageSegmentation.

Import StageSegmentation.


(** ** MD5 ([hashlib.md5], RFC 1321) *)

Module MD5.

Definition add32 (a b : Z) : Z := (a + b) `mod` 2 ^ 32.
Definition not32 (x : Z) : Z := Z.lxor x 0xFFFFFFFF.
Definition rotl32 (x c : Z) : Z :=
  Z.lor (Z.shiftl x c `mod` 2 ^ 32) (Z.shiftr x (32 - c)).

Definition shift_amounts : list Z :=
  [7; 12; 17; 22; 7; 12; 17; 22; 7; 12; 17; 22; 7; 12; 17; 22;
   5; 9; 14; 20; 5; 9; 14; 20; 5; 9; 14; 20; 5; 9; 14; 20;
   4; 11; 16; 23; 4; 11; 16; 23; 4; 11; 16; 23; 4; 11; 16; 23;
   6; 10; 15; 21; 6; 10; 15; 21; 6; 10; 15; 21; 6; 10; 15; 21].

(** [floor (2^32 * |sin (i + 1)|)] for [i] from 0 to 63. *)
Definition sine_table : list Z :=
  [0xd76aa478; 0xe8c7b756; 0x242070db; 0xc1bdceee;
   0xf57c0faf; 0x4787c62a; 0xa8304613; 0xfd469501;
   0x698098d8; 0x8b44f7af; 0xffff5bb1; 0x895cd7be;
   0x6b901122; 0xfd987193; 0xa679438e; 0x49b40821;
   0xf61e2562; 0xc040b340; 0x265e5a51; 0xe9b6c7aa;
   0xd62f105d; 0x02441453; 0xd8a1e681; 0xe7d3fbc8;
   0x21e1cde6; 0xc33707d6; 0xf4d50d87; 0x455a14ed;
   0xa9e3e905; 0xfcefa3f8; 0x676f02d9; 0x8d2a4c8a;
   0xfffa3942; 0x8771f681; 0x6d9d6122; 0xfde5380c;
   0xa4beea44; 0x4bdecfa9; 0xf6bb4b60; 0xbebfbc70;
   0x289b7ec6; 0xeaa127fa; 0xd4ef3085; 0x04881d05;
   0xd9d4d039; 0xe6db99e5; 0x1fa27cf8; 0xc4ac5665;
   0xf4292244; 0x432aff97; 0xab9423a7; 0xfc93a039;
   0x655b59c3; 0x8f0ccc92; 0xffeff47d; 0x85845dd1;
   0x6fa87e4f; 0xfe2ce6e0; 0xa3014314; 0x4e0811a1;
   0xf7537e82; 0xbd3af235; 0x2ad7d2bb; 0xeb86d391].

Definition bytes_of_string (s : string) : list Z :=
  map (λ c, Z.of_N (N_of_ascii c)) (list_ascii_of_string s).

(** The [n] low bytes of [x], least significant first. *)
Fixpoint le_bytes (n : nat) (x : Z) : list Z :=
  match n with
  | O => []
  | S n' => x `mod` 256 :: le_bytes n' (x `div` 256)
  end.

Definition le_word (bs : list Z) : Z :=
  foldr (λ b acc, b + 256 * acc) 0 bs.

(** Append the bit 1, zeros up to 56 modulo 64, and the bit length on 64
    bits. *)
Definition pad (msg : list Z) : list Z :=
  let len := Z.of_nat (length msg) in
  msg ++ [0x80] ++ replicate (Z.to_nat ((55 - len) `mod` 64)) 0
      ++ le_bytes 8 ((8 * len) `mod` 2 ^ 64).

Fixpoint chunks_of (fuel size : nat) (l : list Z) : list (list Z) :=
  match fuel with
  | O => []
  | S fuel' =>
      match l with
      | [] => []
      | _ => take size l :: chunks_of fuel' size (drop size l)
      end
  end.

Definition message_words (block : list Z) : list Z :=
  map le_word (chunks_of 16 4 block).

Definition step (M : list Z) (st : Z * Z * Z * Z) (i : nat) : Z * Z * Z * Z :=
  let '(a, b, c, d) := st in
  let '(f, g) :=
    if (i <? 16)%nat then (Z.lor (Z.land b c) (Z.land (not32 b) d), i)
    else if (i <? 32)%nat then
      (Z.lor (Z.land d b) (Z.land (not32 d) c), ((5 * i + 1) `mod` 16)%nat)
    else if (i <? 48)%nat then
      (Z.lxor (Z.lxor b c) d, ((3 * i + 5) `mod` 16)%nat)
    else (Z.lxor c (Z.lor b (not32 d)), ((7 * i) `mod` 16)%nat) in
  let f := add32 (add32 (add32 f a) (nth i sine_table 0)) (nth g M 0) in
  (d, add32 b (rotl32 f (nth i shift_amounts 0)), b, c).

Definition process_block (st : Z * Z * Z * Z) (block : list Z) : Z * Z * Z * Z :=
  let '(a0, b0, c0, d0) := st in
  let '(a, b, c, d) := foldl (step (message_words block)) st (seq 0 64) in
  (add32 a0 a, add32 b0 b, add32 c0 c, add32 d0 d).

Definition digest (msg : list Z) : list Z :=
  let padded := pad msg in
  let '(a, b, c, d) :=
    foldl process_block (0x67452301, 0xefcdab89, 0x98badcfe, 0x10325476)
          (chunks_of (length padded) 64 padded) in
  le_bytes 4 a ++ le_bytes 4 b ++ le_bytes 4 c ++ le_bytes 4 d.

Definition hex_digit (n : Z) : ascii :=
  nth (Z.to_nat n)
      (list_ascii_of_string "0123456789abcdef") "0"%char.

Definition hex (bs : list Z) : string :=
  string_of_list_ascii
    (flat_map (λ b, [hex_digit (b `div` 16); hex_digit (b `mod` 16)]) bs).

Definition hexdigest (s : string) : string := hex (digest (bytes_of_string s)).

End MD5.

(** ** The profile cache and the batch profiler ([fan_profiler.py]) *)

Module FanProfiler.

(** Values of [json.loads] / [json.dump]; numbers are integers here. *)
#[warnings="-register-all"]
Inductive Json :=
| JNull
| JBool (b : bool)
| JNum (n : Z)
| JStr (s : string)
| JArr (elements : list Json)
| JObj (items : list (string * Json)).

(** A Python [dict] with string keys: its items in insertion order. *)
Abbreviation Dict := (list (string * Json)).

Definition BATCH_SIZE : nat := 20.

(** [d[k] = v]: replace the value of an existing key in place, or append. *)
Fixpoint dict_set (d : Dict) (k : string) (v : Json) : Dict :=
  match d with
  | [] => [(k, v)]
  | (k', v') :: d' =>
      if decide (k' = k) then (k, v) :: d' else (k', v') :: dict_set d' k v
  end.

Definition dict_keys (d : Dict) : list string := map fst d.

(** [get_hash]: [hashlib.md5(text.encode()).hexdigest()]. *)
Definition get_hash (text : string) : string := MD5.hexdigest text.

(** The cache directory: the JSON object stored in [<hash_key>.json], for
    every file there is.  Files are taken to hold JSON objects, which is
    what [save_cache] writes. *)
Definition load_cache (cache : gmap string Dict) (hash_key : string) : option Dict :=
  cache !! hash_key.

Definition save_cache (cache : gmap string Dict) (hash_key : string)
    (response : Dict) : gmap string Dict :=
  <[hash_key := response]> cache.

Definition key_map : list (string * string) :=
  [("Age indicators", "age_indicators");
   ("Job or career", "job_or_career");
   ("Location hints", "location_hints");
   ("Relationship status", "relationship_status");
   ("Personality traits", "personality_traits");
   ("Emotional needs", "emotional_needs");
   ("Purchase motivations", "purchase_motivations");
   ("Communication style", "communication_style");
   ("Life events", "life_events")].

(** [key_map.get(k, k)] *)
Definition key_map_get (k : string) : string :=
  match list_find (λ kv, kv.1 = k) key_map with
  | Some (_, (_, k')) => k'
  | None => k
  end.

(** [{key_map.get(k, k): v for k, v in profile_dict.items()}] *)
Definition normalize_keys (profile_dict : Dict) : Dict :=
  foldl (λ acc kv, dict_set acc (key_map_get kv.1) kv.2) [] profile_dict.

(** Keys that [key_map] leaves alone, each once. *)
Definition normal (d : Dict) : Prop :=
  NoDup (dict_keys d) ∧ Forall (λ k, key_map_get k = k) (dict_keys d).

Definition is_object (j : Json) : Prop :=
  match j with JObj _ => True | _ => False end.

(** The two operations of the cache as [profile_fans] uses it.
    [cache_lookup] is lines 134-137: a missing file and an empty object are
    both a miss ([if cached:]), a hit is normalised.  [cache_store] is lines
    151-152. *)
Definition cache_lookup (cache : gmap string Dict) (text : string) : option Dict :=
  match load_cache cache (get_hash text) with
  | Some ((_ :: _) as cached) => Some (normalize_keys cached)
  | _ => None
  end.

Definition cache_store (cache : gmap string Dict) (text : string)
    (prof : Dict) : gmap string Dict :=
  save_cache cache (get_hash text) prof.

(** What lines 77-93 of [call_llm_batch] come to: the request raises, or
    the reply has no bracketed substring, or [json.loads] raises on it, or
    it yields a list (the substring starts with a bracket). *)
Inductive LLMOutcome :=
| CallRaises
| NoArrayFound
| ParseFails
| Parsed (profiles : list Json).

(** [call_llm_batch]; [None] when the exception leaves the function. *)
Definition call_llm_batch (outcome : LLMOutcome)
    (conversations_list : list string) : option (list Json) :=
  match outcome with
  | CallRaises => None
  | NoArrayFound => Some (map (λ _, JObj []) conversations_list)
  | ParseFails => Some (map (λ _, JObj []) conversations_list)
  | Parsed profiles => Some profiles
  end.

(** The cache directory and the requests sent so far, oldest first. *)
Record World := {
  cache : gmap string Dict;
  calls : list (list string)
}.

Definition tag (prof : Dict) (fan_id : string) : Dict :=
  dict_set prof "fan_model_id" (JStr fan_id).

Definition placeholder (fan_id : string) : Dict :=
  [("fan_model_id", JStr fan_id)].

(** The first loop over a batch (lines 133-142): the profiles of the cache
    hits and the [(text, fan_id)] pairs to query, both in batch order. *)
Fixpoint consult (c : gmap string Dict) (batch : list (string * string))
    : list Dict * list (string * string) :=
  match batch with
  | [] => ([], [])
  | (text, fan_id) :: batch' =>
      let '(hits, to_query) := consult c batch' in
      match cache_lookup c text with
      | Some cached => (tag cached fan_id :: hits, to_query)
      | None => (hits, (text, fan_id) :: to_query)
      end
  end.

(** The loop of lines 148-153 over [zip(new_profiles, to_query_ids,
    to_query_texts)]: the cache after it, the profiles appended, and
    whether it raised ([normalize_keys] on a value that is no object). *)
Fixpoint store_new (c : gmap string Dict) (new_profiles : list Json)
    (to_query : list (string * string)) : gmap string Dict * list Dict * bool :=
  match new_profiles, to_query with
  | prof :: new_profiles', (text, fan_id) :: to_query' =>
      match prof with
      | JObj d =>
          let prof := tag (normalize_keys d) fan_id in
          let '(c', appended, raised) :=
            store_new (cache_store c text prof) new_profiles' to_query' in
          (c', prof :: appended, raised)
      | _ => (c, [], true)
      end
  | _, _ => (c, [], false)
  end.

(** [d.get(k)] *)
Fixpoint dict_get (d : Dict) (k : string) : option Json :=
  match d with
  | [] => None
  | (k', v) :: d' => if decide (k' = k) then Some v else dict_get d' k
  end.

(** A service that answers every request it does not fail with one object
    per text. *)
Definition well_behaved (service : nat → list string → LLMOutcome) : Prop :=
  ∀ n texts,
    match service n texts with
    | Parsed profiles =>
        Forall is_object profiles ∧ length profiles = length texts
    | _ => True
    end.

(** Every entry of [c'] is either the entry of [c] or was written for a
    fan of [qs] whose text misses [c], and is tagged with that fan. *)
Definition writes_for (c c' : gmap string Dict) (qs : list (string * string)) : Prop :=
  ∀ h, c' !! h = c !! h ∨
       ∃ q d, In q qs ∧ get_hash q.1 = h ∧ cache_lookup c q.1 = None ∧
              c' !! h = Some d ∧ dict_get d "fan_model_id" = Some (JStr q.2).

Section Profiler.
(** The service: the outcome of the [n]-th request of the process, given
    the texts it carries. *)
Variable service : nat → list string → LLMOutcome.

(** The body of the loop over batches (lines 126-159). *)
Definition process_batch (w : World) (batch : list (string * string))
    : World * list Dict :=
  let '(hits, to_query) := consult (cache w) batch in
  match to_query with
  | [] => (w, hits)
  | _ :: _ =>
      let texts := map fst to_query in
      let outcome := service (length (calls w)) texts in
      let sent := calls w ++ [texts] in
      match call_llm_batch outcome texts with
      | None =>
          ({| cache := cache w; calls := sent |},
           hits ++ map (λ q, placeholder q.2) to_query)
      | Some new_profiles =>
          let '(c', appended, raised) :=
            store_new (cache w) new_profiles to_query in
          ({| cache := c'; calls := sent |},
           hits ++ appended ++
             (if raised then map (λ q, placeholder q.2) to_query else []))
      end
  end.

Fixpoint batches (fuel : nat) (fans : list (string * string))
    : list (list (string * string)) :=
  match fuel with
  | O => []
  | S fuel' =>
      match fans with
      | [] => []
      | _ => take BATCH_SIZE fans :: batches fuel' (drop BATCH_SIZE fans)
      end
  end.

Fixpoint run_batches (w : World) (bs : list (list (string * string)))
    : World * list Dict :=
  match bs with
  | [] => (w, [])
  | batch :: bs' =>
      let '(w1, profiles1) := process_batch w batch in
      let '(w2, profiles2) := run_batches w1 bs' in
      (w2, profiles1 ++ profiles2)
  end.

(** The loop of [profile_fans] over [(text, fan_id)] pairs. *)
Definition profile_texts (w : World) (fans : list (string * string))
    : World * list Dict :=
  run_batches w (batches (length fans) fans).

(** ["\n".join(group["fan_message"].dropna().astype(str).tolist())]; the
    message column is [message_text] here, [None] for a missing value. *)
Definition all_fan_text (group : list Event) : string :=
  match omap message_text group with
  | [] => EmptyString
  | m :: ms => foldl (λ acc m', acc +:+ String "010" m') m ms
  end.

Definition fan_texts (convos_df : list Event) : list (string * string) :=
  map (λ k, (all_fan_text (filter (λ e, fan_model_id e = k) convos_df), k))
      (groupby_keys (map fan_model_id convos_df)).

Definition profile_fans (w : World) (convos_df : list Event) : World * list Dict :=
  profile_texts w (fan_texts convos_df).
End Profiler.

End FanProfiler.

Import FanProfiler.

(** ** Texts and embeddings ([cluster_analysis.py]) *)

Module ClusterAnalysis.

(** A row of the table of [get_stage_texts]. *)
Record StageText := {
  st_fan_model_id : string;
  st_stage : Stage;
  st_text : string
}.

(** The name of a stage, as it stands in the [stage] column. *)
Definition stage_name (s : Stage) : string :=
  match s with
  | stage_1 => "stage_1"
  | stage_2 => "stage_2"
  | stage_3 => "stage_3"
  end.

(** Order of the group keys of [groupby(["fan_model_id", "stage"])]. *)
Definition pair_le (a b : string * Stage) : bool :=
  if decide (a.1 = b.1)
  then bool_decide (String.le (stage_name a.2) (stage_name b.2))
  else bool_decide (String.le a.1 b.1).

(** [" ".join(msgs.dropna().astype(str))] *)
Definition join_messages (msgs : list (option string)) : string :=
  match omap id msgs with
  | [] => EmptyString
  | m :: ms => foldl (λ acc m', acc +:+ " " +:+ m') m ms
  end.

(** [get_stage_texts]: one row per [(fan_model_id, stage)] pair that
    occurs, in the order of the sorted pairs; the message column is
    [message_text] here. *)
Definition get_stage_texts (df : list (Event * Stage)) : list StageText :=
  map (λ k, {| st_fan_model_id := k.1; st_stage := k.2;
               st_text := join_messages
                 (map (λ r, message_text r.1)
                    (filter (λ r, (fan_model_id r.1, r.2) = k) df)) |})
      (stable_sort pair_le
         (remove_dups (map (λ r, (fan_model_id r.1, r.2)) df))).

(** [l[i:i + size]] for [i] in [range(0, len(l), size)]. *)
Fixpoint slices {A} (fuel size : nat) (l : list A) : list (list A) :=
  match fuel with
  | O => []
  | S fuel' =>
      match l with
      | [] => []
      | _ => take size l :: slices fuel' size (drop size l)
      end
  end.

Section Embeddings.
(** The type of an embedding vector; [t.strip()] being empty, which is
    what [if t.strip()] tests; and the embedding service on one batch,
    [None] when the call raises. *)
Context {V : Type}.
Variable blank : string → bool.
Variable vo_embed : list string → option (list V).

(** The loop over the batches: [embeddings.extend(result.embeddings)];
    an exception of a call leaves the function. *)
Fixpoint embed_batches (bs : list (list string)) : option (list V) :=
  match bs with
  | [] => Some []
  | batch_texts :: bs' =>
      match vo_embed batch_texts with
      | None => None
      | Some batch_embeddings =>
          match embed_batches bs' with
          | None => None
          | Some embeddings => Some (batch_embeddings ++ embeddings)
          end
      end
  end.

(** [generate_text_embeddings], with [batch_size = 20]. *)
Definition generate_text_embeddings (texts : list string) : option (list V) :=
  let clean_texts := filter (λ t, blank t = false) texts in
  embed_batches (slices (length clean_texts) 20 clean_texts).

(** The rows and the embeddings as [cluster_and_plot] puts them together:
    the table is cut to the number of embeddings when the two differ, and
    the cluster and coordinates of row [i] are those of embedding [i];
    [None] when the table is shorter, where the assignment of the column
    raises.  KMeans, UMAP and the plots are taken to return; what they
    compute is not modelled. *)
Definition cluster_rows {R} (embeddings : list V) (df : list R)
    : option (list (R * V)) :=
  let df :=
    if decide (length df ≠ length embeddings)
    then take (length embeddings) df else df in
  if decide (length df = length embeddings)
  then Some (zip df embeddings) else None.

(** Method A of [main]: embed the texts of the table, then cluster the
    table as it is. *)
Definition method_A (texts_df : list StageText) : option (list (StageText * V)) :=
  match generate_text_embeddings (map st_text texts_df) with
  | None => None
  | Some embeddings => cluster_rows embeddings texts_df
  end.
End Embeddings.

End ClusterAnalysis.

Import ClusterAnalysis.

(** * Properties *)

(** ** The stable sort *)

Lemma in_filter {A} (P : A → Prop) `{!∀ x, Decision (P x)} (l : list A) x :
  In x (filter P l) ↔ P x ∧ In x l.
Proof. rewrite <- !list_elem_of_In. apply list_elem_of_filter. Qed.

Lemma filter_none {A} (P : A → Prop) `{!∀ x, Decision (P x)} (l : list A) :
  (∀ x, In x l → ¬ P x) → filter P l = [].
Proof.
  induction l as [|a l IH]; intros Hnone; [done|].
  rewrite filter_cons_False by (apply Hnone; now left).
  apply IH. intros x Hx. apply Hnone. now right.
Qed.

Lemma Sorted_weaken {A} (R1 R2 : A → A → Prop) (l : list A) :
  (∀ a b, R1 a b → R2 a b) → Sorted R1 l → Sorted R2 l.
Proof.
  intros Himp. induction 1 as [|x l Hs IH Hhd]; constructor; [exact IH|].
  destruct Hhd; constructor. now apply Himp.
Qed.

Section stable_sort_facts.
Context {A : Type} (le : A → A → bool).

Lemma insert_sorted_perm x l : insert_sorted le x l ≡ₚ x :: l.
Proof.
  induction l as [|y l IH]; simpl; [done|].
  destruct (le x y); [done|].
  rewrite IH. apply perm_swap.
Qed.

Lemma stable_sort_perm l : stable_sort le l ≡ₚ l.
Proof.
  induction l as [|x l IH]; simpl; [done|].
  rewrite insert_sorted_perm. now rewrite IH.
Qed.

Lemma stable_sort_In l x : In x (stable_sort le l) ↔ In x l.
Proof.
  split; apply Permutation_in;
    [apply stable_sort_perm | symmetry; apply stable_sort_perm].
Qed.

Hypothesis le_total : ∀ a b, le a b = true ∨ le b a = true.

Lemma insert_sorted_Sorted x l :
  Sorted (λ a b, le a b = true) l →
  Sorted (λ a b, le a b = true) (insert_sorted le x l).
Proof.
  induction 1 as [|y l Hs IH Hhd]; simpl.
  - repeat constructor.
  - destruct (le x y) eqn:Hxy.
    + constructor; [now constructor | now constructor].
    + constructor; [exact IH|].
      destruct (le_total x y) as [Hc|Hyx]; [congruence|].
      destruct Hhd as [|z l' Hyz]; simpl.
      * now constructor.
      * destruct (le x z); now constructor.
Qed.

Lemma stable_sort_Sorted l : Sorted (λ a b, le a b = true) (stable_sort le l).
Proof.
  induction l as [|x l IH]; simpl; [constructor|].
  now apply insert_sorted_Sorted.
Qed.
End stable_sort_facts.

(** ** Conversation segmentation *)

Section segmentation_facts.

Lemma str_of_nat_inj n m : str_of_nat n = str_of_nat m → n = m.
Proof.
  unfold str_of_nat. intros H.
  assert (Hu : Some (Nat.to_uint n) = Some (Nat.to_uint m)).
  { rewrite <- !NilEmpty.usu. now rewrite H. }
  injection Hu as Hu.
  rewrite <- (DecimalNat.Unsigned.of_to n), <- (DecimalNat.Unsigned.of_to m).
  now rewrite Hu.
Qed.

(** The rows of one group are the walk of that group alone. *)
Lemma walk_group_view st df k :
  filter (λ r, fan_model_id (event r) = k) (walk st df)
  = walk_group (st !! k) (filter (λ e, fan_model_id e = k) df).
Proof.
  revert st. induction df as [|e df IH]; intros st; [done|].
  simpl. rewrite !filter_cons. simpl.
  destruct (decide (fan_model_id e = k)) as [<-|Hne].
  - simpl. f_equal. rewrite IH. now rewrite lookup_insert_eq.
  - rewrite IH. now rewrite lookup_insert_ne.
Qed.

Lemma walk_group_events prev g : map event (walk_group prev g) = g.
Proof. revert prev. induction g as [|e g IH]; intros; simpl; [done|]. now rewrite IH. Qed.

Lemma assign_row_id prev e :
  conversation_id (assign_row prev e)
  = fan_model_id e +:+ "_C" +:+ str_of_nat (convo_id (assign_row prev e)).
Proof. reflexivity. Qed.

Lemma walk_group_id prev g r :
  In r (walk_group prev g) →
  conversation_id r
  = fan_model_id (event r) +:+ "_C" +:+ str_of_nat (convo_id r).
Proof.
  revert prev. induction g as [|e g IH]; intros prev; simpl; [done|].
  intros [<-|Hin]; [reflexivity|]. eapply IH, Hin.
Qed.

(** Two neighbours of a group: the second row sees the first through
    [shift(1)], and the running sum grows by its flag. *)
Lemma walk_group_step prev g (i : nat) r1 r2 :
  walk_group prev g !! i = Some r1 →
  walk_group prev g !! S i = Some r2 →
  prev_model r2 = Some (model_id (event r1)) ∧
  prev_time r2 = Some (timestamp (event r1)) ∧
  new_convo r2
    = bool_decide (model_id (event r2) ≠ model_id (event r1))
      || bool_decide (timestamp (event r2) - timestamp (event r1) > hours 4) ∧
  convo_id r2 = (convo_id r1 + (if new_convo r2 then 1 else 0))%nat.
Proof.
  revert prev i. induction g as [|e g IH]; intros prev i; [done|].
  destruct i as [|i]; simpl.
  - intros [= <-]. destruct g as [|e' g]; [done|]. simpl.
    intros [= <-]. simpl. done.
  - apply IH.
Qed.

Lemma group_rows_same_key (rows : list ConvoRow) k (i : nat) r :
  filter (λ r, fan_model_id (event r) = k) rows !! i = Some r →
  fan_model_id (event r) = k.
Proof.
  intros Hi. apply list_elem_of_lookup_2 in Hi.
  apply list_elem_of_filter in Hi. now destruct Hi.
Qed.

Lemma walk_cons st e df :
  walk st (e :: df)
  = assign_row (st !! fan_model_id e) e
      :: walk (<[fan_model_id e := state_after (assign_row (st !! fan_model_id e) e)]> st) df.
Proof. reflexivity. Qed.

Lemma key_le_same_group a b :
  fan_model_id a = fan_model_id b →
  key_le a b = bool_decide (timestamp a ≤ timestamp b).
Proof. intros H. unfold key_le. now rewrite decide_True. Qed.

Lemma remove_dups_two (a b : string) :
  length (remove_dups [a; b]) = if decide (a = b) then 1%nat else 2%nat.
Proof.
  cbn [remove_dups].
  destruct (decide_rel elem_of b []) as [Hb|_]; [by apply elem_of_nil in Hb|].
  destruct (decide_rel elem_of a [b]) as [Ha|Ha]; case_decide; try done.
  - now apply list_elem_of_singleton in Ha.
  - exfalso. apply Ha. now apply list_elem_of_singleton.
Qed.

(** Two rows of one fan and one model, in time order: one conversation,
    or two when they are more than four hours apart. *)
Lemma two_events e1 e2 :
  fan_id e1 = fan_id e2 → model_id e1 = model_id e2 →
  is_system e1 = false → is_system e2 = false →
  timestamp e1 ≤ timestamp e2 →
  n_conversations (assign_conversations (preprocess [e1; e2]))
  = if decide (timestamp e2 - timestamp e1 > hours 4) then 2%nat else 1%nat.
Proof.
  intros Hf Hm Hs1 Hs2 Hle.
  assert (Hk : fan_model_id e2 = fan_model_id e1)
    by (unfold fan_model_id; now rewrite Hf, Hm).
  unfold preprocess, sort_values.
  rewrite filter_cons_True, filter_cons_True, filter_nil by done.
  simpl stable_sort. rewrite key_le_same_group by done.
  rewrite bool_decide_eq_true_2 by done.
  unfold assign_conversations. rewrite !walk_cons, lookup_empty.
  rewrite Hk, lookup_insert_eq.
  unfold n_conversations. cbn [walk map conversation_id assign_row state_after
    convo_id event last_model last_time running].
  rewrite Hk, Hm.
  rewrite (bool_decide_eq_false_2 (model_id e2 ≠ model_id e2)) by (intros H; now apply H).
  cbn [orb Nat.add].
  destruct (decide (timestamp e2 - timestamp e1 > hours 4)) as [Hgap|Hgap].
  - rewrite bool_decide_eq_true_2 by done.
    rewrite remove_dups_two, decide_False; [done|].
    intros Heq. apply String.app_inj in Heq. discriminate.
  - rewrite bool_decide_eq_false_2 by done.
    now rewrite remove_dups_two, decide_True.
Qed.

(** *** The sort order *)

Lemma key_le_total a b : key_le a b = true ∨ key_le b a = true.
Proof.
  unfold key_le.
  destruct (decide (fan_model_id a = fan_model_id b)) as [Heq|Hne].
  - rewrite decide_True by done.
    destruct (decide (timestamp a ≤ timestamp b)).
    + left. now apply bool_decide_eq_true.
    + right. apply bool_decide_eq_true. lia.
  - rewrite decide_False by done.
    destruct (total String.le (fan_model_id a) (fan_model_id b)).
    + left. now apply bool_decide_eq_true.
    + right. now apply bool_decide_eq_true.
Qed.

Lemma key_le_trans a b c :
  key_le a b = true → key_le b c = true → key_le a c = true.
Proof.
  unfold key_le. repeat case_decide; rewrite !bool_decide_eq_true;
    intros Hab Hbc; try lia; try congruence.
  - exfalso. assert (fan_model_id a = fan_model_id b); [|done].
    apply (anti_symm String.le); congruence.
  - by etrans.
Qed.

Lemma key_le_antisym a b :
  key_le a b = true → key_le b a = true →
  fan_model_id a = fan_model_id b ∧ timestamp a = timestamp b.
Proof.
  unfold key_le.
  destruct (decide (fan_model_id a = fan_model_id b)) as [Heq|Hne].
  - rewrite decide_True by done. rewrite !bool_decide_eq_true.
    intros Hab Hba. split; [done|lia].
  - rewrite decide_False by done. rewrite !bool_decide_eq_true.
    intros Hab Hba. exfalso. apply Hne.
    now apply (anti_symm String.le).
Qed.

(** *** Reordering rows that tie *)

Lemma tie_perm_refl l : tie_perm l l.
Proof. induction l; now constructor. Qed.

Lemma key_le_tied_r x a b : tied a b → key_le x a = key_le x b.
Proof. intros (Hk & Ht & _). unfold key_le. now rewrite Hk, Ht. Qed.

Lemma insert_tie_perm x l l' :
  tie_perm l l' →
  tie_perm (insert_sorted key_le x l) (insert_sorted key_le x l').
Proof.
  induction 1 as [|a l l' Hll IH|a b l Hab|l1 l2 l3 _ IH1 _ IH2]; simpl.
  - apply tie_perm_refl.
  - destruct (key_le x a); [now apply tie_skip, tie_skip|apply tie_skip, IH].
  - rewrite <- (key_le_tied_r x a b Hab).
    destruct (key_le x a).
    + apply tie_skip. now apply tie_swap.
    + now apply tie_swap.
  - eapply tie_trans; eassumption.
Qed.

Lemma insert_insert_tie_perm x y l :
  (key_le x y = true → key_le y x = true → tied x y) →
  tie_perm (insert_sorted key_le x (insert_sorted key_le y l))
           (insert_sorted key_le y (insert_sorted key_le x l)).
Proof.
  intros Htie.
  assert (Hbase : ∀ l, tie_perm
    (if key_le x y then x :: y :: l else y :: x :: l)
    (if key_le y x then y :: x :: l else x :: y :: l)).
  { intros l0. destruct (key_le x y) eqn:Hxy, (key_le y x) eqn:Hyx.
    - apply tie_swap. now apply Htie.
    - apply tie_perm_refl.
    - apply tie_perm_refl.
    - destruct (key_le_total x y); congruence. }
  induction l as [|z l IH]; simpl.
  - specialize (Hbase []). destruct (key_le x y), (key_le y x); exact Hbase.
  - destruct (key_le y z) eqn:Hyz, (key_le x z) eqn:Hxz; simpl;
      rewrite ?Hyz, ?Hxz.
    + specialize (Hbase (z :: l)).
      destruct (key_le x y), (key_le y x); exact Hbase.
    + destruct (key_le x y) eqn:Hxy.
      * rewrite (key_le_trans x y z) in Hxz; done.
      * apply tie_perm_refl.
    + destruct (key_le y x) eqn:Hyx.
      * rewrite (key_le_trans y x z) in Hyz; done.
      * apply tie_perm_refl.
    + apply tie_skip, IH.
Qed.

(** Sorting two orders of the same rows gives the same list up to the
    order of tied rows, provided rows that the sort cannot tell apart
    name the same model. *)
Lemma sort_values_tie_perm l l' :
  l ≡ₚ l' →
  (∀ a b, In a l → In b l → fan_model_id a = fan_model_id b →
          timestamp a = timestamp b → model_id a = model_id b) →
  tie_perm (sort_values l) (sort_values l').
Proof.
  unfold sort_values.
  induction 1 as [|x l l' Hp IH|x y l|l1 l2 l3 Hp1 IH1 Hp2 IH2]; intros Hm; simpl.
  - constructor.
  - apply insert_tie_perm, IH. intros a b Ha Hb. apply Hm; now right.
  - apply insert_insert_tie_perm. intros Hyx Hxy.
    destruct (key_le_antisym _ _ Hyx Hxy) as [Hk Ht].
    repeat split; try done. apply Hm; try done; [left; done|right; left; done].
  - eapply tie_trans; [now apply IH1|]. apply IH2.
    intros a b Ha Hb. symmetry in Hp1.
    apply Hm; eapply Permutation_in; eassumption.
Qed.

(** Tied rows get the same conversation and leave the same state. *)
Lemma assign_row_tied prev x y :
  tied x y →
  conversation_id (assign_row prev y) = conversation_id (assign_row prev x) ∧
  state_after (assign_row prev y) = state_after (assign_row prev x).
Proof.
  intros (Hk & Ht & Hm). unfold state_after, assign_row. simpl.
  rewrite Hk, Ht, Hm. done.
Qed.

Lemma assign_row_again prev x :
  conversation_id (assign_row (Some (state_after (assign_row prev x))) x)
    = conversation_id (assign_row prev x) ∧
  state_after (assign_row (Some (state_after (assign_row prev x))) x)
    = state_after (assign_row prev x).
Proof.
  unfold state_after, assign_row. simpl.
  rewrite bool_decide_eq_false_2 by (intros H; now apply H).
  rewrite bool_decide_eq_false_2 by (unfold hours; lia).
  simpl. now rewrite Nat.add_0_r.
Qed.

Lemma walk_tie_perm l l' :
  tie_perm l l' →
  ∀ st, assignments (walk st l) ≡ₚ assignments (walk st l').
Proof.
  induction 1 as [|a l l' _ IH|a b l Hab|l1 l2 l3 _ IH1 _ IH2]; intros st.
  - done.
  - rewrite !walk_cons. unfold assignments in *. simpl. now rewrite IH.
  - rewrite !walk_cons.
    pose proof Hab as (Hk & _).
    rewrite <- !Hk, !lookup_insert_eq, !insert_insert_eq.
    destruct (assign_row_tied (st !! fan_model_id a) a b Hab) as [Hc1 Hs1].
    destruct (assign_row_tied
      (Some (state_after (assign_row (st !! fan_model_id a) a))) a b Hab)
      as [Hc2 Hs2].
    destruct (assign_row_again (st !! fan_model_id a) a) as [Hc3 Hs3].
    rewrite Hs1, Hs2, Hs3.
    unfold assignments. cbn [map event assign_row].
    fold (assign_row (st !! fan_model_id a) a).
    change (event (assign_row ?p ?e)) with e.
    rewrite Hc1, Hc2, Hc3.
    apply perm_swap.
  - now rewrite IH1.
Qed.

(** The rows of the group [k] in the output of [assign_conversations]. *)
Lemma group_rows (df : list Event) (k : string) :
  let g := filter (λ r, fan_model_id (event r) = k) (assign_conversations df) in
  (∀ (i : nat) r1 r2, g !! i = Some r1 → g !! S i = Some r2 →
     new_convo r2
       = bool_decide (model_id (event r2) ≠ model_id (event r1))
         || bool_decide (timestamp (event r2) - timestamp (event r1) > hours 4) ∧
     convo_id r2 = (convo_id r1 + (if new_convo r2 then 1 else 0))%nat) ∧
  (∀ r, In r g → conversation_id r = k +:+ "_C" +:+ str_of_nat (convo_id r)).
Proof.
  intros g. subst g. unfold assign_conversations.
  rewrite walk_group_view, lookup_empty. split.
  - intros i r1 r2 H1 H2.
    destruct (walk_group_step _ _ _ _ _ H1 H2) as (_ & _ & Hnew & Hid). done.
  - intros r Hin. rewrite (walk_group_id _ _ _ Hin). f_equal.
    assert (Hev : In (event r) (filter (λ e, fan_model_id e = k) df)).
    { rewrite <- (walk_group_events None). now apply in_map. }
    apply in_filter in Hev. now destruct Hev.
Qed.

End segmentation_facts.

(** ** Stage assignment *)

Section stage_facts.

Lemma ts_le_total a b : ts_le a b = true ∨ ts_le b a = true.
Proof.
  unfold ts_le. destruct (decide (timestamp a ≤ timestamp b)).
  - left. now apply bool_decide_eq_true.
  - right. apply bool_decide_eq_true. lia.
Qed.

Lemma sort_by_timestamp_sorted group :
  StronglySorted (λ a b, timestamp a ≤ timestamp b) (sort_by_timestamp group).
Proof.
  apply Sorted_StronglySorted; [intros a b c; lia|].
  eapply Sorted_weaken; [|apply stable_sort_Sorted, ts_le_total].
  intros a b Hab. unfold ts_le in Hab. now apply bool_decide_eq_true in Hab.
Qed.

Lemma StronglySorted_filter_ts (P : Event → Prop) `{!∀ x, Decision (P x)} l :
  StronglySorted (λ a b, timestamp a ≤ timestamp b) l →
  StronglySorted (λ a b, timestamp a ≤ timestamp b) (filter P l).
Proof.
  induction 1 as [|x l Hs IH Hall]; [constructor|].
  rewrite filter_cons. destruct (decide (P x)); [|exact IH].
  constructor; [exact IH|].
  rewrite Forall_forall in *. intros y Hy.
  apply Hall. apply list_elem_of_filter in Hy. now destruct Hy.
Qed.

(** In a list sorted by timestamp the head is the earliest and the last
    element the latest. *)
Lemma sorted_head_le l (p x : Event) :
  StronglySorted (λ a b, timestamp a ≤ timestamp b) l →
  head l = Some p → In x l → timestamp p ≤ timestamp x.
Proof.
  intros Hs Hh Hx. destruct l as [|p' l]; simplify_eq/=.
  destruct Hx as [->|Hx]; [lia|].
  apply StronglySorted_inv in Hs as [_ Hall].
  rewrite Forall_forall in Hall. now apply Hall, list_elem_of_In.
Qed.

Lemma sorted_le_last l (p x : Event) :
  StronglySorted (λ a b, timestamp a ≤ timestamp b) l →
  last l = Some p → In x l → timestamp x ≤ timestamp p.
Proof.
  induction 1 as [|y l Hs IH Hall]; intros Hl Hx; [done|].
  destruct l as [|z l].
  - simpl in *. simplify_eq. destruct Hx as [->|[]]. lia.
  - rewrite last_cons_cons in Hl. destruct Hx as [->|Hx]; [|now apply IH].
    rewrite Forall_forall in Hall.
    apply Hall. eapply last_Some_elem_of, Hl.
Qed.

Lemma head_map {A B} (f : A → B) l : head (map f l) = f <$> head l.
Proof. now destruct l. Qed.

Lemma last_map {A B} (f : A → B) l : last (map f l) = f <$> last l.
Proof.
  induction l as [|x [|y l] IH]; [done..|].
  change (map f (x :: y :: l)) with (f x :: f y :: map f l).
  now rewrite !last_cons_cons.
Qed.

(** The three parts of [assign_stages_group] are the three classes. *)
Lemma assign_stages_group_parts group pf pl :
  let sorted := sort_by_timestamp group in
  head (filter (λ e, purchase e = true) sorted) = Some pf →
  last (filter (λ e, purchase e = true) sorted) = Some pl →
  timestamp pf ≤ timestamp pl ∧
  assign_stages_group group =
    label stage_1 (filter (λ e, classify (timestamp pf) (timestamp pl) (timestamp e) = stage_1) sorted)
    ++ label stage_2 (filter (λ e, classify (timestamp pf) (timestamp pl) (timestamp e) = stage_2) sorted)
    ++ label stage_3 (filter (λ e, classify (timestamp pf) (timestamp pl) (timestamp e) = stage_3) sorted).
Proof.
  intros sorted Hh Hl.
  assert (Hle : timestamp pf ≤ timestamp pl).
  { eapply sorted_head_le; [|exact Hh|].
    - apply StronglySorted_filter_ts, sort_by_timestamp_sorted.
    - apply list_elem_of_In. eapply last_Some_elem_of, Hl. }
  split; [exact Hle|].
  unfold assign_stages_group. cbv zeta. fold sorted.
  destruct (filter (λ e, purchase e = true) sorted) as [|p0 ps] eqn:Hf;
    [done|]. simpl in Hh. simplify_eq.
  change (map timestamp (pf :: ps)) with (timestamp pf :: map timestamp ps).
  cbv iota beta.
  change (timestamp pf :: map timestamp ps) with (map timestamp (pf :: ps)).
  rewrite last_map, Hl. simpl.
  f_equal; [|f_equal].
  - f_equal. apply list_filter_iff. intros e. unfold classify.
    repeat case_decide; split; intros; try done; lia.
  - f_equal. case_decide as Hne.
    + apply list_filter_iff. intros e. unfold classify.
      repeat case_decide; split; intros; try done; lia.
    + symmetry. apply filter_none. intros e _. unfold classify.
      repeat case_decide; try done; lia.
  - f_equal. apply list_filter_iff. intros e. unfold classify.
    repeat case_decide; split; intros; try done; lia.
Qed.

Lemma in_label s part e s' : In (e, s') (label s part) ↔ s' = s ∧ In e part.
Proof.
  unfold label. rewrite in_map_iff. split.
  - intros (x & Hx & Hin). now simplify_eq.
  - intros [-> Hin]. now exists e.
Qed.

Lemma three_way_perm {A} (c : A → Stage) (l : list A) :
  filter (λ e, c e = stage_1) l ++ filter (λ e, c e = stage_2) l
    ++ filter (λ e, c e = stage_3) l ≡ₚ l.
Proof.
  induction l as [|x l IH]; [done|].
  rewrite !filter_cons.
  destruct (c x) eqn:Hc; repeat case_decide; try done; simpl.
  - now rewrite IH.
  - rewrite <- Permutation_middle. now rewrite IH.
  - rewrite app_assoc, <- Permutation_middle, <- app_assoc. now rewrite IH.
Qed.

Lemma map_fst_label s part : map fst (label s part) = part.
Proof. unfold label. rewrite map_map. simpl. apply map_id. Qed.

(** Every event of the group gets one label. *)
Lemma assign_stages_group_perm group :
  map fst (assign_stages_group group) ≡ₚ group.
Proof.
  destruct (head (filter (λ e, purchase e = true) (sort_by_timestamp group)))
    as [pf|] eqn:Hh.
  - destruct (last (filter (λ e, purchase e = true) (sort_by_timestamp group)))
      as [pl|] eqn:Hl.
    + destruct (assign_stages_group_parts group pf pl Hh Hl) as [_ ->].
      rewrite !map_app, !map_fst_label, three_way_perm.
      apply stable_sort_perm.
    + apply last_None in Hl. now rewrite Hl in Hh.
  - apply head_None in Hh. unfold assign_stages_group. rewrite Hh. simpl.
    rewrite map_fst_label. apply stable_sort_perm.
Qed.

(** The label of an event, in the terms of the code: against the first
    and the last purchase row of the sorted group. *)
Lemma assign_stages_group_In group e s :
  let purchases := filter (λ e, purchase e = true) (sort_by_timestamp group) in
  In (e, s) (assign_stages_group group) ↔
  In e group ∧
  s = match head purchases, last purchases with
      | Some pf, Some pl => classify (timestamp pf) (timestamp pl) (timestamp e)
      | _, _ => stage_1
      end.
Proof.
  intros purchases. subst purchases.
  destruct (head (filter (λ e, purchase e = true) (sort_by_timestamp group)))
    as [pf|] eqn:Hh.
  - destruct (last (filter (λ e, purchase e = true) (sort_by_timestamp group)))
      as [pl|] eqn:Hl.
    + destruct (assign_stages_group_parts group pf pl Hh Hl) as [_ ->].
      rewrite !in_app_iff, !in_label, !in_filter.
      unfold sort_by_timestamp. rewrite stable_sort_In.
      destruct (classify _ _ _); intuition congruence.
    + apply last_None in Hl. now rewrite Hl in Hh.
  - apply head_None in Hh. unfold assign_stages_group. rewrite Hh. simpl.
    rewrite in_label. unfold sort_by_timestamp. rewrite stable_sort_In.
    intuition congruence.
Qed.

Lemma purchases_sorted_perm group :
  filter (λ e, purchase e = true) (sort_by_timestamp group)
    ≡ₚ filter (λ e, purchase e = true) group.
Proof. apply filter_Permutation, stable_sort_perm. Qed.

Lemma foldr_min_spec p ps :
  In (foldr Z.min p ps) (p :: ps) ∧ ∀ x, In x (p :: ps) → foldr Z.min p ps ≤ x.
Proof.
  induction ps as [|q ps [IHin IHle]]; simpl.
  - split; [now left|]. intros x [->|[]]. lia.
  - split.
    + destruct (Z.min_spec q (foldr Z.min p ps)) as [[_ ->]|[_ ->]].
      * right. now left.
      * simpl in IHin. destruct IHin as [?|?]; [now left|right; now right].
    + intros x [->|[->|Hx]].
      * etrans; [apply Z.le_min_r|]. apply IHle. now left.
      * apply Z.le_min_l.
      * etrans; [apply Z.le_min_r|]. apply IHle. now right.
Qed.

Lemma foldr_max_spec p ps :
  In (foldr Z.max p ps) (p :: ps) ∧ ∀ x, In x (p :: ps) → x ≤ foldr Z.max p ps.
Proof.
  induction ps as [|q ps [IHin IHle]]; simpl.
  - split; [now left|]. intros x [->|[]]. lia.
  - split.
    + destruct (Z.max_spec q (foldr Z.max p ps)) as [[_ ->]|[_ ->]].
      * simpl in IHin. destruct IHin as [?|?]; [now left|right; now right].
      * right. now left.
    + intros x [->|[->|Hx]].
      * etrans; [|apply Z.le_max_r]. apply IHle. now left.
      * apply Z.le_max_l.
      * etrans; [|apply Z.le_max_r]. apply IHle. now right.
Qed.

(** The label in the terms of the specification: against the earliest
    and the latest purchase timestamp of the group, whatever its order. *)
Lemma group_stage_of group e :
  let purchases := filter (λ e, purchase e = true) (sort_by_timestamp group) in
  match head purchases, last purchases with
  | Some pf, Some pl => classify (timestamp pf) (timestamp pl) (timestamp e)
  | _, _ => stage_1
  end
  = stage_of (map timestamp (filter (λ e, purchase e = true) group)) (timestamp e).
Proof.
  intros purchases.
  assert (Hperm : purchases ≡ₚ filter (λ e, purchase e = true) group)
    by apply purchases_sorted_perm.
  assert (Hs : StronglySorted (λ a b, timestamp a ≤ timestamp b) purchases)
    by apply StronglySorted_filter_ts, sort_by_timestamp_sorted.
  destruct (filter (λ e, purchase e = true) group) as [|q qs] eqn:Hq.
  - apply Permutation_nil_r in Hperm. now rewrite Hperm.
  - destruct (head purchases) as [pf|] eqn:Hh;
      [|apply head_None in Hh; rewrite Hh in Hperm;
        now apply Permutation_nil_cons in Hperm].
    destruct (last purchases) as [pl|] eqn:Hl;
      [|apply last_None in Hl; rewrite Hl in Hperm;
        now apply Permutation_nil_cons in Hperm].
    simpl. unfold classify.
    destruct (foldr_min_spec (timestamp q) (map timestamp qs)) as [Hmin_in Hmin].
    destruct (foldr_max_spec (timestamp q) (map timestamp qs)) as [Hmax_in Hmax].
    change (timestamp q :: map timestamp qs) with (map timestamp (q :: qs)) in *.
    assert (Hpf : In pf (q :: qs)).
    { eapply Permutation_in; [exact Hperm|].
      apply list_elem_of_In. eapply head_Some_elem_of, Hh. }
    assert (Hpl : In pl (q :: qs)).
    { eapply Permutation_in; [exact Hperm|].
      apply list_elem_of_In. eapply last_Some_elem_of, Hl. }
    apply in_map_iff in Hmin_in as (a & Ha & Hain).
    apply in_map_iff in Hmax_in as (b & Hb & Hbin).
    symmetry in Hperm.
    pose proof (sorted_head_le _ _ a Hs Hh (Permutation_in _ Hperm Hain)).
    pose proof (sorted_le_last _ _ b Hs Hl (Permutation_in _ Hperm Hbin)).
    pose proof (Hmin _ (in_map timestamp _ _ Hpf)).
    pose proof (Hmax _ (in_map timestamp _ _ Hpl)).
    assert (foldr Z.min (timestamp q) (map timestamp qs) = timestamp pf) as -> by lia.
    assert (foldr Z.max (timestamp q) (map timestamp qs) = timestamp pl) as -> by lia.
    reflexivity.
Qed.

Lemma groupby_keys_In (keys : list string) k :
  In k (groupby_keys keys) ↔ In k keys.
Proof.
  unfold groupby_keys. rewrite stable_sort_In, <- !list_elem_of_In.
  apply elem_of_remove_dups.
Qed.

End stage_facts.

(** ** The profile cache and the batch profiler *)

Section profiler_facts.

Lemma dict_set_not_empty d k v : dict_set d k v ≠ [].
Proof. destruct d as [|[k' v'] d]; simpl; [done|]. now case_decide. Qed.

Lemma cache_lookup_hit (c : gmap string Dict) text :
  is_Some (cache_lookup c text) ↔
  ∃ d, c !! get_hash text = Some d ∧ d ≠ [].
Proof.
  unfold cache_lookup, load_cache. split.
  - intros [p Hp]. destruct (c !! get_hash text) as [[|kv d]|]; try done.
    now exists (kv :: d).
  - intros (d & -> & Hd). destruct d; [done|]. eauto.
Qed.

Lemma cache_lookup_miss (c : gmap string Dict) text :
  c !! get_hash text = None → cache_lookup c text = None.
Proof. unfold cache_lookup, load_cache. now intros ->. Qed.

Lemma cache_store_lookup c text prof :
  prof ≠ [] →
  cache_lookup (cache_store c text prof) text = Some (normalize_keys prof).
Proof.
  intros Hne. unfold cache_lookup, cache_store, load_cache, save_cache.
  rewrite lookup_insert_eq. by destruct prof.
Qed.

Lemma cache_store_other c text text' prof :
  get_hash text' ≠ get_hash text →
  cache_lookup (cache_store c text' prof) text = cache_lookup c text.
Proof.
  intros Hne. unfold cache_lookup, cache_store, load_cache, save_cache.
  now rewrite lookup_insert_ne.
Qed.

Lemma cache_store_keeps_hits c text' prof text :
  prof ≠ [] →
  is_Some (cache_lookup c text) →
  is_Some (cache_lookup (cache_store c text' prof) text).
Proof.
  intros Hne Hhit.
  destruct (decide (get_hash text' = get_hash text)) as [Heq|Hneq].
  - apply cache_lookup_hit. exists prof. split; [|done].
    unfold cache_store, save_cache. rewrite Heq. apply lookup_insert_eq.
  - now rewrite cache_store_other.
Qed.

(** The first loop splits the batch: the tagged profiles of the hits and
    the misses, both in batch order. *)
Lemma consult_spec c batch :
  consult c batch
  = (omap (λ q, (λ p, tag p q.2) <$> cache_lookup c q.1) batch,
     filter (λ q, cache_lookup c q.1 = None) batch).
Proof.
  induction batch as [|[text fan_id] batch IH]; [done|].
  simpl. rewrite IH. rewrite filter_cons. simpl.
  now destruct (cache_lookup c text).
Qed.

(** *** Normalised profiles stay as they are *)

Lemma key_map_get_idem k : key_map_get (key_map_get k) = key_map_get k.
Proof.
  unfold key_map_get at 2 3. unfold key_map. simpl.
  repeat (case_decide; [reflexivity|]). simpl.
  unfold key_map_get, key_map. simpl.
  repeat (case_decide; [congruence|]). reflexivity.
Qed.

Lemma dict_keys_dict_set_old d k v :
  k ∈ dict_keys d → dict_keys (dict_set d k v) = dict_keys d.
Proof.
  induction d as [|[k' v'] d IH]; intros Hin.
  - now apply elem_of_nil in Hin.
  - cbn [dict_set]. destruct (decide (k' = k)) as [->|Hne]; [done|].
    cbn [dict_keys map fst] in *.
    apply elem_of_cons in Hin as [->|Hin]; [done|].
    f_equal. now apply IH.
Qed.

Lemma dict_keys_dict_set_new d k v :
  k ∉ dict_keys d → dict_keys (dict_set d k v) = dict_keys d ++ [k].
Proof.
  induction d as [|[k' v'] d IH]; intros Hnin; [done|].
  cbn [dict_keys map fst] in Hnin.
  apply not_elem_of_cons in Hnin as [Hne Hnin].
  cbn [dict_set]. rewrite decide_False by done.
  cbn [dict_keys map fst app] in *. f_equal. now apply IH.
Qed.

Lemma dict_set_fresh d k v : k ∉ dict_keys d → dict_set d k v = d ++ [(k, v)].
Proof.
  induction d as [|[k' v'] d IH]; intros Hnin; [done|].
  cbn [dict_keys map fst] in Hnin.
  apply not_elem_of_cons in Hnin as [Hne Hnin].
  cbn [dict_set]. rewrite decide_False by done. now rewrite IH.
Qed.

Lemma dict_set_normal d k v :
  normal d → key_map_get k = k → normal (dict_set d k v).
Proof.
  intros [Hnd Hfix] Hk. unfold normal.
  destruct (decide (k ∈ dict_keys d)) as [Hin|Hin];
    [now rewrite dict_keys_dict_set_old|].
  rewrite dict_keys_dict_set_new by done. split.
  - apply NoDup_app. split; [done|]. split; [|apply NoDup_singleton].
    intros x Hx Hx'. apply list_elem_of_singleton in Hx' as ->. done.
  - apply Forall_app. split; [done|]. now apply Forall_singleton.
Qed.

Lemma normalize_keys_normal d : normal (normalize_keys d).
Proof.
  unfold normalize_keys.
  assert (Hgen : ∀ acc, normal acc →
    normal (foldl (λ acc kv, dict_set acc (key_map_get kv.1) kv.2) acc d)).
  { induction d as [|[k v] d IH]; intros acc Hacc; [done|].
    simpl. apply IH. apply dict_set_normal; [done|apply key_map_get_idem]. }
  apply Hgen. split; [apply NoDup_nil_2|apply Forall_nil_2].
Qed.

Lemma normalize_keys_of_normal d : normal d → normalize_keys d = d.
Proof.
  unfold normalize_keys.
  assert (Hgen : ∀ acc, normal (acc ++ d) →
    foldl (λ acc kv, dict_set acc (key_map_get kv.1) kv.2) acc d = acc ++ d).
  { induction d as [|[k v] d IH]; intros acc Hn; simpl.
    - now rewrite app_nil_r.
    - destruct Hn as [Hnd Hfix]. unfold dict_keys in *.
      rewrite map_app in Hnd, Hfix. simpl in Hnd, Hfix.
      apply Forall_app in Hfix as Hfix'. destruct Hfix' as [_ Hfix'].
      apply Forall_cons in Hfix' as [Hk _]. rewrite Hk.
      apply NoDup_app in Hnd as Hnd'. destruct Hnd' as (_ & Hdisj & _).
      rewrite dict_set_fresh.
      + rewrite IH; [now rewrite <- app_assoc|].
        split; unfold dict_keys; rewrite <- app_assoc, map_app; done.
      + intros Hin. apply (Hdisj _ Hin). left. }
  intros Hn. now apply (Hgen []).
Qed.

Lemma normalize_keys_idem d :
  normalize_keys (normalize_keys d) = normalize_keys d.
Proof. apply normalize_keys_of_normal, normalize_keys_normal. Qed.

Lemma normalize_keys_tagged d fan_id :
  normalize_keys (tag (normalize_keys d) fan_id) = tag (normalize_keys d) fan_id.
Proof.
  apply normalize_keys_of_normal, dict_set_normal;
    [apply normalize_keys_normal|reflexivity].
Qed.

Lemma process_batch_unfold service w batch :
  let served := omap (λ q, (λ p, tag p q.2) <$> cache_lookup (cache w) q.1) batch in
  let uncached := filter (λ q, cache_lookup (cache w) q.1 = None) batch in
  process_batch service w batch
  = match uncached with
    | [] => (w, served)
    | _ :: _ =>
        let texts := map fst uncached in
        let sent := calls w ++ [texts] in
        match call_llm_batch (service (length (calls w)) texts) texts with
        | None =>
            ({| cache := cache w; calls := sent |},
             served ++ map (λ q, placeholder q.2) uncached)
        | Some new_profiles =>
            let r := store_new (cache w) new_profiles uncached in
            ({| cache := r.1.1; calls := sent |},
             served ++ r.1.2 ++
               (if r.2 then map (λ q, placeholder q.2) uncached else []))
        end
    end.
Proof.
  intros served uncached. unfold process_batch. rewrite consult_spec.
  fold served uncached. destruct uncached; [done|]. cbv zeta.
  destruct (call_llm_batch _ _); [|done].
  now destruct (store_new _ _ _) as [[??]?].
Qed.

(** *** The loop that stores fresh profiles *)

Lemma tag_not_empty prof fan_id : tag prof fan_id ≠ [].
Proof. apply dict_set_not_empty. Qed.

Lemma store_new_keeps_hits c new_profiles to_query text :
  is_Some (cache_lookup c text) →
  is_Some (cache_lookup (store_new c new_profiles to_query).1.1 text).
Proof.
  revert c to_query.
  induction new_profiles as [|prof ps IH]; intros c [|[t f] qs] Hhit; try done.
  simpl. destruct prof; try done.
  specialize (IH (cache_store c t (tag (normalize_keys items) f)) qs).
  destruct (store_new _ ps qs) as [[c' appended] raised]. simpl in *.
  apply IH. apply cache_store_keeps_hits; [apply tag_not_empty|done].
Qed.

(** The replies of the two parse failures: one empty object per text. *)
Lemma store_new_placeholders c to_query :
  store_new c (map (λ _, JObj []) (map fst to_query)) to_query
  = (foldl (λ c q, cache_store c q.1 (placeholder q.2)) c to_query,
     map (λ q, placeholder q.2) to_query, false).
Proof.
  revert c. induction to_query as [|[t f] qs IH]; intros c; [done|].
  simpl. now rewrite IH.
Qed.

Lemma stored_placeholders_lookup to_query c h :
  let c' := foldl (λ c q, cache_store c q.1 (placeholder q.2)) c to_query in
  (∃ text fan_id, In (text, fan_id) to_query ∧ get_hash text = h ∧
                  c' !! h = Some (placeholder fan_id))
  ∨ ((∀ q, In q to_query → get_hash q.1 ≠ h) ∧ c' !! h = c !! h).
Proof.
  revert c. induction to_query as [|[t f] qs IH]; intros c; simpl.
  - right. split; [now intros|done].
  - destruct (IH (cache_store c t (placeholder f)))
      as [(text & fan & Hin & Hh & Hc)|[Hnone Hc]].
    + left. exists text, fan. eauto.
    + destruct (decide (get_hash t = h)) as [Heq|Hne].
      * left. exists t, f. split; [now left|]. split; [done|].
        rewrite Hc, <- Heq. apply lookup_insert_eq.
      * right. split.
        -- intros q [<-|Hq]; [done|now apply Hnone].
        -- rewrite Hc. unfold cache_store, save_cache.
           now apply lookup_insert_ne.
Qed.

(** Objects only: the loop does not raise, and the text of every fan it
    reaches hits the cache afterwards. *)
Lemma store_new_objects c new_profiles to_query :
  Forall is_object new_profiles →
  let r := store_new c new_profiles to_query in
  r.2 = false ∧
  length r.1.2 = min (length new_profiles) (length to_query) ∧
  ∀ q, In q (take (length new_profiles) to_query) →
       is_Some (cache_lookup r.1.1 q.1).
Proof.
  revert c to_query.
  induction new_profiles as [|prof ps IH]; intros c [|[t f] qs] Hobj; simpl;
    try (repeat split; try done; now intros).
  apply Forall_cons in Hobj as [Hp Hps]. destruct prof; try done.
  specialize (IH (cache_store c t (tag (normalize_keys items) f)) qs Hps).
  pose proof (store_new_keeps_hits
    (cache_store c t (tag (normalize_keys items) f)) ps qs t) as Hkeep.
  destruct (store_new _ ps qs) as [[c' appended] raised]. simpl in *.
  destruct IH as (Hr & Hlen & Hhits). repeat split; [done|now rewrite Hlen|].
  intros q [<-|Hq]; [|now apply Hhits].
  apply Hkeep. rewrite cache_store_lookup; [eauto|apply tag_not_empty].
Qed.

(** *** Later batches and later runs *)

Lemma process_batch_keeps_hits service w batch text :
  is_Some (cache_lookup (cache w) text) →
  is_Some (cache_lookup (cache (process_batch service w batch).1) text).
Proof.
  intros Hhit. rewrite process_batch_unfold. cbv zeta.
  destruct (filter _ batch); [done|].
  destruct (call_llm_batch _ _); [|done].
  simpl. now apply store_new_keeps_hits.
Qed.

(** A request only carries texts that miss the cache. *)
Lemma process_batch_requests service w batch :
  ∃ new, calls (process_batch service w batch).1 = calls w ++ new ∧
         ∀ request text, In request new → In text request →
                         cache_lookup (cache w) text = None.
Proof.
  rewrite process_batch_unfold. cbv zeta.
  destruct (filter (λ q, cache_lookup (cache w) q.1 = None) batch)
    as [|q qs] eqn:Hf.
  - exists []. simpl. rewrite app_nil_r. split; [done|now intros].
  - exists [map fst (q :: qs)].
    split; [now destruct (call_llm_batch _ _)|].
    intros request text [<-|[]] Hin.
    apply in_map_iff in Hin as (q' & <- & Hq').
    rewrite <- Hf in Hq'. apply in_filter in Hq'. now destruct Hq'.
Qed.

Lemma run_batches_later service bs w :
  (∀ text, is_Some (cache_lookup (cache w) text) →
           is_Some (cache_lookup (cache (run_batches service w bs).1) text)) ∧
  ∃ new, calls (run_batches service w bs).1 = calls w ++ new ∧
         ∀ request text, In request new → In text request →
                         cache_lookup (cache w) text = None.
Proof.
  revert w. induction bs as [|batch bs IH]; intros w; simpl.
  - split; [done|]. exists []. rewrite app_nil_r. split; [done|now intros].
  - pose proof (process_batch_keeps_hits service w batch) as Hk1.
    destruct (process_batch_requests service w batch) as (new1 & Hc1 & Hm1).
    destruct (process_batch service w batch) as [w1 p1]. simpl in *.
    destruct (IH w1) as (Hk2 & new2 & Hc2 & Hm2).
    destruct (run_batches service w1 bs) as [w2 p2]. simpl in *.
    split; [intros text Hhit; now apply Hk2, Hk1|].
    exists (new1 ++ new2). split; [now rewrite Hc2, Hc1, app_assoc|].
    intros request text Hin Ht. apply in_app_iff in Hin as [Hin|Hin].
    + eapply Hm1; eassumption.
    + specialize (Hm2 _ _ Hin Ht).
      destruct (cache_lookup (cache w) text) eqn:Hc; [|done].
      destruct (Hk1 text) as [p Hp]; [eauto|]. congruence.
Qed.

End profiler_facts.

(** C2.  The stage rule of one group: every event gets one label; without
    a purchase event all labels are stage_1; otherwise, with the first and
    the last purchase event of the group sorted by timestamp, an event is
    stage_1 up to and including the first purchase timestamp, stage_2 after
    it up to and including the last, and stage_3 after the last; with
    exactly one purchase event nothing is stage_2 and the purchase event is
    stage_1. *)
Theorem stage_rule (group : list Event) :
  let purchases :=
    filter (λ e, purchase e = true) (sort_by_timestamp group) in
  let out := assign_stages_group group in
  map fst out ≡ₚ group ∧
  ((∀ e, In e group → purchase e = false) →
   ∀ e s, In (e, s) out → s = stage_1) ∧
  (∀ pf pl, head purchases = Some pf → last purchases = Some pl →
   ∀ e s, In (e, s) out →
     (timestamp e ≤ timestamp pf → s = stage_1) ∧
     (timestamp pf < timestamp e ∧ timestamp e ≤ timestamp pl → s = stage_2) ∧
     (timestamp e > timestamp pl → s = stage_3)) ∧
  (∀ p, filter (λ e, purchase e = true) group = [p] →
   In (p, stage_1) out ∧ ∀ e, ¬ In (e, stage_2) out).
Proof.
  intros purchases out. split; [apply assign_stages_group_perm|].
  split; [|split].
  - intros Hnone e s Hin.
    apply assign_stages_group_In in Hin as [_ ->].
    rewrite group_stage_of.
    rewrite filter_none; [done|].
    intros x Hx Hp. rewrite (Hnone x Hx) in Hp. discriminate.
  - intros pf pl Hh Hl e s Hin.
    destruct (assign_stages_group_parts group pf pl Hh Hl) as [Hle _].
    apply assign_stages_group_In in Hin as [_ ->].
    fold purchases. rewrite Hh, Hl. unfold classify.
    repeat case_decide; repeat split; intros; try done; lia.
  - intros p Hp.
    assert (Hpur : purchases = [p]).
    { apply Permutation_singleton_r. subst purchases.
      rewrite purchases_sorted_perm. now rewrite Hp. }
    assert (Hpin : In p group).
    { eapply (in_filter (λ e, purchase e = true)). rewrite Hp. now left. }
    split.
    + apply assign_stages_group_In. split; [exact Hpin|].
      fold purchases. rewrite Hpur. simpl. unfold classify.
      case_decide; [done|lia].
    + intros e Hin. apply assign_stages_group_In in Hin as [_ Hs].
      fold purchases in Hs. rewrite Hpur in Hs. simpl in Hs.
      unfold classify in Hs. repeat case_decide; try done; lia.
Qed.

Lemma stage_rule_witness :
  let g := [mk 0 "f" "m" (-1) false; mk 1 "f" "m" 0 true; mk 2 "f" "m" 5 false;
            mk 3 "f" "m" 10 true; mk 4 "f" "m" 15 false] in
  head (filter (λ e, purchase e = true) (sort_by_timestamp g))
    = Some (mk 1 "f" "m" 0 true) ∧
  last (filter (λ e, purchase e = true) (sort_by_timestamp g))
    = Some (mk 3 "f" "m" 10 true) ∧
  map snd (assign_stages_group g) = [stage_1; stage_1; stage_2; stage_2; stage_3] ∧
  (∀ e s, In (e, s) (assign_stages_group g) →
     (timestamp e ≤ 0 → s = stage_1) ∧
     (0 < timestamp e ∧ timestamp e ≤ 10 → s = stage_2) ∧
     (timestamp e > 10 → s = stage_3)).
Proof.
  intros g. split; [reflexivity|]. split; [reflexivity|].
  split; [reflexivity|].
  exact (proj1 (proj2 (proj2 (stage_rule g)))
           (mk 1 "f" "m" 0 true) (mk 3 "f" "m" 10 true) eq_refl eq_refl).
Defined.

(** C1 fails as stated.  A fan buys at time 0 and writes again ten hours
    later: the segmenter puts the two rows in two conversations, the second
    without any purchase, yet [assign_stages] labels the second row stage_3
    (staging per conversation labels it stage_1); and clearing the purchase
    flag of the row in the other conversation changes its label. *)
Lemma stage_crosses_conversations :
  let bought := mk 0 "f" "m" 0 true in
  let not_bought := mk 0 "f" "m" 0 false in
  let later := mk 1 "f" "m" (hours 10) false in
  assignments (assign_conversations (preprocess [bought; later]))
    = [(bought, "f_m_C1"); (later, "f_m_C2")] ∧
  assignments (assign_conversations (preprocess [not_bought; later]))
    = [(not_bought, "f_m_C1"); (later, "f_m_C2")] ∧
  assign_stages (load_data [bought; later])
    = [(bought, stage_1); (later, stage_3)] ∧
  assign_stages_per_conversation [bought; later]
    = [(bought, stage_1); (later, stage_1)] ∧
  assign_stages (load_data [not_bought; later])
    = [(not_bought, stage_1); (later, stage_1)].
Proof. repeat split; vm_compute; reflexivity. Qed.

(** C1, as the code has it.  [assign_stages] groups by [fan_model_id], not by
    conversation: the stage of an event is fixed by its own timestamp and
    the purchase timestamps of all the rows of its fan-model pair, those of
    its other conversations included. *)
Theorem stage_per_fan_model (df : list Event) (e : Event) (s : Stage) :
  In (e, s) (assign_stages df) ↔
  In e df ∧
  s = stage_of
        (map timestamp
           (filter (λ e', purchase e' = true)
              (filter (λ e', fan_model_id e' = fan_model_id e) df)))
        (timestamp e).
Proof.
  unfold assign_stages. rewrite in_flat_map. split.
  - intros (k & Hk & Hin).
    apply assign_stages_group_In in Hin as [Hin ->].
    apply in_filter in Hin as [<- Hin].
    split; [exact Hin|]. apply group_stage_of.
  - intros [Hin ->]. exists (fan_model_id e). split.
    + apply groupby_keys_In. now apply in_map.
    + apply assign_stages_group_In. split; [now apply in_filter|].
      symmetry. apply group_stage_of.
Qed.

(** C6, as the code has it.  The first row of a fan-model group has no
    previous model, so it is flagged as a new conversation itself and the
    running sum starts at 1: the first event of a group is in conversation
    1, with id [fan_model_id + "_C1"]; from one row of the group to the
    next the number grows by one at a boundary and stays otherwise; and the
    id is the group key, "_C" and the decimal number. *)
Theorem conversation_numbering (df : list Event) (k : string) :
  let g := filter (λ r, fan_model_id (event r) = k) (assign_conversations df) in
  map event g = filter (λ e, fan_model_id e = k) df ∧
  (∀ r, head g = Some r →
     new_convo r = true ∧ convo_id r = 1%nat ∧
     conversation_id r = k +:+ "_C1") ∧
  (∀ (i : nat) r1 r2, g !! i = Some r1 → g !! S i = Some r2 →
     convo_id r2 = (convo_id r1 + (if new_convo r2 then 1 else 0))%nat) ∧
  (∀ r, In r g → conversation_id r = k +:+ "_C" +:+ str_of_nat (convo_id r)).
Proof.
  intros g. destruct (group_rows df k) as [Hstep Hid]. fold g in Hstep, Hid.
  split; [|split; [|split]].
  - subst g. unfold assign_conversations.
    rewrite walk_group_view, lookup_empty. apply walk_group_events.
  - subst g. unfold assign_conversations.
    rewrite walk_group_view, lookup_empty. intros r Hh.
    destruct (filter (λ e, fan_model_id e = k) df) as [|e g] eqn:Hg; [done|].
    simpl in Hh. injection Hh as <-.
    assert (Hk : fan_model_id e = k).
    { assert (Hin : e ∈ filter (λ e, fan_model_id e = k) df)
        by (rewrite Hg; left).
      apply list_elem_of_filter in Hin. now destruct Hin. }
    repeat split. simpl. now rewrite Hk.
  - intros i r1 r2 H1 H2. now destruct (Hstep i r1 r2 H1 H2).
  - exact Hid.
Qed.

Lemma conversation_numbering_witness :
  let df := [mk 0 "f" "m" 0 false; mk 1 "g" "m" 5 false;
             mk 2 "f" "m" (hours 6) false] in
  let first := assign_row None (mk 0 "f" "m" 0 false) in
  head (filter (λ r, fan_model_id (event r) = "f_m") (assign_conversations df))
    = Some first ∧
  new_convo first = true ∧ convo_id first = 1%nat ∧
  conversation_id first = "f_m_C1".
Proof.
  intros df first. split; [reflexivity|].
  exact (proj1 (proj2 (conversation_numbering df "f_m")) first eq_refl).
Defined.

(** C6 fails as stated: the only event of a group is in conversation 1, and
    its id ends in "_C1", not "_C0". *)
Lemma first_conversation_not_zero :
  map (λ r, (convo_id r, conversation_id r))
      (assign_conversations (preprocess [mk 0 "f" "m" 0 false]))
    = [(1%nat, "f_m_C1")] ∧
  "f_m_C1" ≠ fan_model_id (mk 0 "f" "m" 0 false) +:+ "_C0".
Proof. split; [reflexivity|discriminate]. Qed.

(** C7.  Between two neighbouring rows of a fan-model group a new
    conversation starts at the second one exactly when its model differs
    from the first one's or it comes more than four hours later; so two
    rows of one fan and model five hours apart make two conversations,
    three hours apart one, and exactly four hours apart one. *)
Theorem boundary_rule (df : list Event) (k : string) :
  let g := filter (λ r, fan_model_id (event r) = k) (assign_conversations df) in
  (∀ (i : nat) r1 r2, g !! i = Some r1 → g !! S i = Some r2 →
     (new_convo r2 = true ↔
        model_id (event r2) ≠ model_id (event r1) ∨
        timestamp (event r2) - timestamp (event r1) > hours 4) ∧
     (conversation_id r2 ≠ conversation_id r1 ↔
        model_id (event r2) ≠ model_id (event r1) ∨
        timestamp (event r2) - timestamp (event r1) > hours 4)) ∧
  (∀ e1 e2, fan_id e1 = fan_id e2 → model_id e1 = model_id e2 →
     is_system e1 = false → is_system e2 = false →
     (timestamp e2 = timestamp e1 + hours 5 →
        n_conversations (assign_conversations (preprocess [e1; e2])) = 2%nat) ∧
     (timestamp e2 = timestamp e1 + hours 3 →
        n_conversations (assign_conversations (preprocess [e1; e2])) = 1%nat) ∧
     (timestamp e2 = timestamp e1 + hours 4 →
        n_conversations (assign_conversations (preprocess [e1; e2])) = 1%nat)).
Proof.
  intros g. split.
  - intros i r1 r2 H1 H2.
    assert (Hin1 : In r1 g) by (eapply list_elem_of_In, list_elem_of_lookup_2, H1).
    assert (Hin2 : In r2 g) by (eapply list_elem_of_In, list_elem_of_lookup_2, H2).
    destruct (group_rows df k) as [Hstep Hid]. fold g in Hstep, Hid.
    destruct (Hstep i r1 r2 H1 H2) as [Hnew Hcount].
    rewrite (Hid _ Hin1), (Hid _ Hin2), Hcount.
    assert (Hflag : new_convo r2 = true ↔
        model_id (event r2) ≠ model_id (event r1) ∨
        timestamp (event r2) - timestamp (event r1) > hours 4).
    { rewrite Hnew, orb_true_iff, !bool_decide_eq_true. reflexivity. }
    split; [exact Hflag|]. rewrite <- Hflag.
    destruct (new_convo r2); split; try done.
    + intros _ Heq. apply String.app_inj, String.app_inj in Heq.
      apply str_of_nat_inj in Heq. lia.
    + intros Hne. exfalso. apply Hne. now rewrite Nat.add_0_r.
  - intros e1 e2 Hf Hm Hs1 Hs2. unfold hours. repeat split; intros Ht;
      (rewrite two_events by (done || lia));
      unfold hours; case_decide; (done || lia).
Qed.

Lemma boundary_rule_witness :
  let a := mk 0 "f" "m" 0 false in
  let b := mk 1 "f" "m" (hours 5) false in
  let r1 := assign_row None a in
  let r2 := assign_row (Some (state_after r1)) b in
  (new_convo r2 = true ↔
     model_id b ≠ model_id a ∨ timestamp b - timestamp a > hours 4) ∧
  (conversation_id r2 ≠ conversation_id r1 ↔
     model_id b ≠ model_id a ∨ timestamp b - timestamp a > hours 4) ∧
  n_conversations (assign_conversations (preprocess [a; b])) = 2%nat ∧
  n_conversations
    (assign_conversations (preprocess [a; mk 1 "f" "m" (hours 3) false])) = 1%nat ∧
  n_conversations
    (assign_conversations (preprocess [a; mk 1 "f" "m" (hours 4) false])) = 1%nat.
Proof.
  intros a b r1 r2.
  pose proof (proj1 (boundary_rule (preprocess [a; b]) "f_m") 0%nat r1 r2
                eq_refl eq_refl) as [Hflag Hid].
  split; [exact Hflag|]. split; [exact Hid|]. split; [|split].
  - exact (proj1 (proj2 (boundary_rule [] "f_m") a b
             eq_refl eq_refl eq_refl eq_refl) eq_refl).
  - exact (proj1 (proj2 (proj2 (boundary_rule [] "f_m") a (mk 1 "f" "m" (hours 3) false)
             eq_refl eq_refl eq_refl eq_refl)) eq_refl).
  - exact (proj2 (proj2 (proj2 (boundary_rule [] "f_m") a (mk 1 "f" "m" (hours 4) false)
             eq_refl eq_refl eq_refl eq_refl)) eq_refl).
Defined.

(** C8, as the code has it.  The sort breaks ties by input order, and rows
    of one [fan_model_id] can name different models (the key is a plain
    concatenation).  Reordering the input leaves every event in the same
    conversation provided that rows (system rows apart) with the same
    [fan_model_id] and the same timestamp name the same model. *)
Theorem reorder_invariance (df1 df2 : list Event) :
  df1 ≡ₚ df2 →
  (∀ a b, In a df1 → In b df1 → is_system a = false → is_system b = false →
          fan_model_id a = fan_model_id b → timestamp a = timestamp b →
          model_id a = model_id b) →
  assignments (assign_conversations (preprocess df1))
    ≡ₚ assignments (assign_conversations (preprocess df2)) ∧
  (∀ e c, In (e, c) (assignments (assign_conversations (preprocess df1))) ↔
          In (e, c) (assignments (assign_conversations (preprocess df2)))).
Proof.
  intros Hperm Hmodel.
  assert (Hp : assignments (assign_conversations (preprocess df1))
                 ≡ₚ assignments (assign_conversations (preprocess df2))).
  { unfold assign_conversations, preprocess. apply walk_tie_perm.
    apply sort_values_tie_perm.
    - now apply filter_Permutation.
    - intros a b Ha Hb. apply in_filter in Ha as [Hsa Ha], Hb as [Hsb Hb].
      now apply Hmodel. }
  split; [exact Hp|].
  intros e c. split; apply Permutation_in; [exact Hp|symmetry; exact Hp].
Qed.

Lemma reorder_invariance_witness :
  let a := mk 0 "f" "m" 0 false in
  let b := mk 1 "f" "m" 0 true in
  let c := mk 2 "f" "m" (hours 5) false in
  assignments (assign_conversations (preprocess [a; b; c]))
    ≡ₚ assignments (assign_conversations (preprocess [c; b; a])) ∧
  (∀ e id, In (e, id) (assignments (assign_conversations (preprocess [a; b; c]))) ↔
           In (e, id) (assignments (assign_conversations (preprocess [c; b; a])))).
Proof.
  intros a b c. apply (reorder_invariance [a; b; c] [c; b; a]).
  - change [a; b; c] with ([a] ++ [b] ++ [c]).
    change [c; b; a] with ([c] ++ [b] ++ [a]).
    rewrite (Permutation_app_comm [a]), (Permutation_app_comm [b]).
    now rewrite <- app_assoc.
  - intros x y Hx Hy _ _ _ _.
    simpl in Hx, Hy.
    destruct Hx as [<-|[<-|[<-|[]]]], Hy as [<-|[<-|[<-|[]]]]; reflexivity.
Defined.

(** C8 fails as stated.  Fan "a_b" with model "c" and fan "a" with model
    "b_c" share the key "a_b_c"; with equal timestamps the row that comes
    first in the input opens conversation 1 and the other one, a model
    switch, conversation 2.  Exchanging the two input rows exchanges their
    conversations. *)
Lemma tie_order_decides :
  let x := mk 0 "a_b" "c" 0 false in
  let y := mk 1 "a" "b_c" 0 false in
  [x; y] ≡ₚ [y; x] ∧
  assignments (assign_conversations (preprocess [x; y]))
    = [(x, "a_b_c_C1"); (y, "a_b_c_C2")] ∧
  assignments (assign_conversations (preprocess [y; x]))
    = [(y, "a_b_c_C1"); (x, "a_b_c_C2")].
Proof. split; [apply perm_swap|split; reflexivity]. Qed.

(** C9 does not hold of the code.  [compute_features] subtracts the index
    labels of two rows, [purchase_msgs.index[0] - group.index[0]].  The labels
    are those of the raw log, so rows of other fans lying in between are
    counted (first log: one message before the purchase, feature 2), and a
    log that is not in time order gives a negative number (second log). *)
Theorem messages_before_first_purchase_by_label :
  let log1 := [mk 0 "a" "m" 0 false; mk 1 "b" "m" (hours 1) false;
               mk 2 "a" "m" (hours 2) true] in
  let log2 := [mk 0 "a" "m" (hours 2) true; mk 1 "a" "m" 0 false] in
  let rows1 := assign_conversations (preprocess log1) in
  let rows2 := assign_conversations (preprocess log2) in
  map event (filter (λ r, conversation_id r = "a_m_C1") rows1)
    = [mk 0 "a" "m" 0 false; mk 2 "a" "m" (hours 2) true] ∧
  rows_before_first_purchase (filter (λ r, conversation_id r = "a_m_C1") rows1) = 1 ∧
  map (λ f, (f_conversation_id f, messages_before_first_purchase f))
      (compute_features rows1) = [("a_m_C1", 2); ("b_m_C1", 1)] ∧
  map event (filter (λ r, conversation_id r = "a_m_C1") rows2)
    = [mk 1 "a" "m" 0 false; mk 0 "a" "m" (hours 2) true] ∧
  rows_before_first_purchase (filter (λ r, conversation_id r = "a_m_C1") rows2) = 1 ∧
  map (λ f, (f_conversation_id f, messages_before_first_purchase f))
      (compute_features rows2) = [("a_m_C1", -1)].
Proof. repeat split; vm_compute; reflexivity. Qed.

(** C3.  One batch: the fans whose text hits the cache get their cached
    profile, normalised and tagged, with no request; when some fan misses,
    one request is sent and it carries the texts of exactly the misses, in
    batch order; when no fan misses, none is sent. *)
Theorem one_call_per_batch (service : nat → list string → LLMOutcome)
    (w : World) (batch : list (string * string)) :
  let uncached := filter (λ q, cache_lookup (cache w) q.1 = None) batch in
  let served :=
    omap (λ q, (λ p, tag p q.2) <$> cache_lookup (cache w) q.1) batch in
  let w' := (process_batch service w batch).1 in
  let out := (process_batch service w batch).2 in
  calls w' = calls w ++ match uncached with
                        | [] => []
                        | _ :: _ => [map fst uncached]
                        end ∧
  (∃ fresh, out = served ++ fresh) ∧
  match uncached with
  | [] => out = served ∧ cache w' = cache w
  | _ :: _ => True
  end.
Proof.
  intros uncached served w' out. subst w' out.
  unfold process_batch. rewrite consult_spec. fold uncached served.
  destruct uncached as [|q qs].
  - simpl. rewrite app_nil_r. repeat split; try done.
    exists []. now rewrite app_nil_r.
  - destruct (call_llm_batch _ _) as [new_profiles|].
    + destruct (store_new _ _ _) as [[c' appended] raised]. simpl.
      repeat split; eauto.
    + simpl. repeat split; eauto.
Qed.

(** C4 does not hold of the code.  Both requests below return an array
    that parses.  In the first the array is empty: [zip] stops at once and
    the only fan gets no profile at all.  In the second the array holds an
    object and a number: the first fan's profile is appended and cached,
    the number makes [normalize_keys] raise, and the handler appends a
    placeholder for both fans, so the first fan has two rows. *)
Theorem profiles_dropped_and_duplicated :
  let w0 := {| cache := ∅; calls := [] |} in
  (profile_texts (λ _ _, Parsed []) w0 [("hello", "fan1")]).2 = [] ∧
  (profile_texts (λ _ _, Parsed [JObj [("Job or career", JStr "nurse")]; JNum 1])
     w0 [("hello", "fan1"); ("hi", "fan2")]).2
  = [[("job_or_career", JStr "nurse"); ("fan_model_id", JStr "fan1")];
     [("fan_model_id", JStr "fan1")];
     [("fan_model_id", JStr "fan2")]].
Proof. split; vm_compute; reflexivity. Qed.

(** C10, as the code has it.  When the reply has no array or does not
    parse, every uncached fan of the batch gets a placeholder and the
    placeholder is stored under the hash of its text, so the text hits the
    cache in every later run and is in no later request.  When the request
    raises, the placeholders are emitted and the cache is left as it was.
    When the reply parses into objects only, nothing raises and every fan
    the loop reaches is cached.  (A parsed array with an element that is no
    object also ends in placeholders that are not cached.) *)
Theorem failed_parse_is_cached (service : nat → list string → LLMOutcome)
    (w : World) (batch : list (string * string)) :
  let uncached := filter (λ q, cache_lookup (cache w) q.1 = None) batch in
  let served :=
    omap (λ q, (λ p, tag p q.2) <$> cache_lookup (cache w) q.1) batch in
  let outcome := service (length (calls w)) (map fst uncached) in
  let w' := (process_batch service w batch).1 in
  let out := (process_batch service w batch).2 in
  (outcome = NoArrayFound ∨ outcome = ParseFails →
   out = served ++ map (λ q, placeholder q.2) uncached ∧
   ∀ q, In q uncached →
     (∃ text fan_id, In (text, fan_id) uncached ∧ get_hash text = get_hash q.1 ∧
        cache w' !! get_hash q.1 = Some (placeholder fan_id) ∧
        cache_lookup (cache w') q.1 = Some (placeholder fan_id)) ∧
     (∀ service' fans,
        let later := (profile_texts service' w' fans).1 in
        is_Some (cache_lookup (cache later) q.1) ∧
        ∀ request, In request (drop (length (calls w')) (calls later)) →
                   ¬ In q.1 request)) ∧
  (outcome = CallRaises →
   out = served ++ map (λ q, placeholder q.2) uncached ∧ cache w' = cache w) ∧
  (∀ profiles, outcome = Parsed profiles → Forall is_object profiles →
   length out = (length served + min (length profiles) (length uncached))%nat ∧
   ∀ q, In q (take (length profiles) uncached) →
        is_Some (cache_lookup (cache w') q.1)).
Proof.
  intros uncached served outcome w' out. subst w' out.
  rewrite process_batch_unfold. fold uncached served. cbv zeta. fold outcome.
  split; [|split].
  - intros Hout.
    assert (Hcall : call_llm_batch outcome (map fst uncached)
                    = Some (map (λ _, JObj []) (map fst uncached)))
      by (destruct Hout as [-> | ->]; reflexivity).
    destruct uncached as [|q0 qs] eqn:Hu.
    { simpl. rewrite app_nil_r. split; [done|now intros]. }
    rewrite Hcall, store_new_placeholders. cbn [fst snd cache].
    rewrite app_nil_r. split; [done|].
    intros q Hq.
    assert (Hstored : ∃ text fan_id, In (text, fan_id) (q0 :: qs) ∧
      get_hash text = get_hash q.1 ∧
      foldl (λ c q, cache_store c q.1 (placeholder q.2)) (cache w) (q0 :: qs)
        !! get_hash q.1 = Some (placeholder fan_id)).
    { destruct (stored_placeholders_lookup (q0 :: qs) (cache w) (get_hash q.1))
        as [Hfound|[Hnone _]]; [exact Hfound|].
      now destruct (Hnone q Hq). }
    destruct Hstored as (text & fan & Hin & Hh & Hc).
    assert (Hlook : cache_lookup
      (foldl (λ c q, cache_store c q.1 (placeholder q.2)) (cache w) (q0 :: qs)) q.1
      = Some (placeholder fan)).
    { unfold cache_lookup, load_cache. now rewrite Hc. }
    split; [exists text, fan; eauto|].
    intros service' fans. unfold profile_texts.
    match goal with |- context [run_batches service' ?w1 ?bs] =>
      destruct (run_batches_later service' bs w1) as (Hkeep & new & Hcalls & Hmiss)
    end.
    split; [apply Hkeep; cbn [cache]; rewrite Hlook; eauto|].
    rewrite Hcalls, drop_app_length. intros request Hreq Hin'.
    specialize (Hmiss _ _ Hreq Hin'). cbn [cache] in Hmiss. congruence.
  - intros Hout. rewrite Hout. simpl.
    destruct uncached; simpl; [now rewrite app_nil_r|done].
  - intros profiles Hout Hobj. rewrite Hout. simpl.
    destruct (store_new_objects (cache w) profiles uncached Hobj)
      as (Hr & Hlen & Hhits).
    destruct uncached as [|q0 qs] eqn:Hu.
    { simpl. rewrite Nat.min_0_r, Nat.add_0_r. split; [done|].
      intros q Hq. rewrite take_nil in Hq. destruct Hq. }
    cbn [fst snd cache]. rewrite Hr, app_nil_r, length_app, Hlen.
    split; [done|exact Hhits].
Qed.

Lemma failed_parse_is_cached_witness :
  let w0 := {| cache := ∅; calls := [] |} in
  let service := λ (_ : nat) (_ : list string), NoArrayFound in
  let batch := [("hello", "fan1")] in
  (process_batch service w0 batch).2 = [placeholder "fan1"] ∧
  cache_lookup (cache (process_batch service w0 batch).1) "hello"
    = Some (placeholder "fan1") ∧
  (∀ service' fans,
     is_Some (cache_lookup
       (cache (profile_texts service' (process_batch service w0 batch).1 fans).1)
       "hello")).
Proof.
  intros w0 service batch.
  pose proof (proj1 (failed_parse_is_cached service w0 batch) (or_introl eq_refl))
    as [Hout Hq].
  split; [exact Hout|]. split; [reflexivity|].
  intros service' fans.
  exact (proj1 (proj2 (Hq ("hello", "fan1") (or_introl eq_refl)) service' fans)).
Defined.

(** C10 fails as stated in its last part.  The request below does not
    raise: it returns an array, whose element is a string.  The loop raises
    on it, the fan gets a placeholder, and nothing is cached. *)
Lemma placeholder_without_raising_call :
  let w0 := {| cache := ∅; calls := [] |} in
  let service := λ (_ : nat) (_ : list string), Parsed [JStr "n/a"] in
  call_llm_batch (service 0%nat ["hello"]) ["hello"] = Some [JStr "n/a"] ∧
  process_batch service w0 [("hello", "fan1")]
    = ({| cache := ∅; calls := [["hello"]] |}, [placeholder "fan1"]) ∧
  cache_lookup (cache (process_batch service w0 [("hello", "fan1")]).1) "hello"
    = None.
Proof. repeat split; vm_compute; reflexivity. Qed.

(** C5, as the code has it.  Storing a non-empty profile and looking the
    same text up returns the profile, normalised (a profile as the profiler
    stores it comes back as it is); a text whose hash has no entry is
    absent, and storing under another hash does not change that; the key is
    the MD5 of the exact text, so that texts differing in one space, such
    as "a b" and "a  b", have different keys.  (Different texts with the
    same MD5 share one entry.) *)
Theorem cache_contract (c : gmap string Dict) (text : string) :
  (∀ prof, prof ≠ [] →
     cache_lookup (cache_store c text prof) text = Some (normalize_keys prof)) ∧
  (∀ d fan_id,
     cache_lookup (cache_store c text (tag (normalize_keys d) fan_id)) text
     = Some (tag (normalize_keys d) fan_id)) ∧
  (c !! get_hash text = None → cache_lookup c text = None) ∧
  (∀ text' prof, get_hash text' ≠ get_hash text →
     cache_lookup (cache_store c text' prof) text = cache_lookup c text) ∧
  get_hash text = MD5.hexdigest text ∧
  get_hash "a b" ≠ get_hash "a  b".
Proof.
  split; [intros prof Hne; now apply cache_store_lookup|].
  split.
  { intros d fan_id.
    rewrite cache_store_lookup by apply tag_not_empty.
    now rewrite normalize_keys_tagged. }
  split; [apply cache_lookup_miss|].
  split; [intros text' prof Hne; now apply cache_store_other|].
  split; [reflexivity|]. vm_compute. discriminate.
Qed.

Lemma cache_contract_witness :
  let prof := [("Job or career", JStr "nurse"); ("fan_model_id", JStr "fan1")] in
  cache_lookup (cache_store ∅ "hello" prof) "hello"
    = Some [("job_or_career", JStr "nurse"); ("fan_model_id", JStr "fan1")] ∧
  cache_lookup (∅ : gmap string Dict) "hello" = None.
Proof.
  intros prof. split.
  - exact (proj1 (cache_contract ∅ "hello") prof
             (λ H : prof = [], eq_ind prof (λ l, match l with [] => False | _ => True end) I [] H)).
  - exact (proj1 (proj2 (proj2 (cache_contract ∅ "hello"))) eq_refl).
Defined.

(** C5 fails as stated.  Two texts that differ in one letter have the same
    MD5, hence the same cache key: after storing a profile for the first,
    looking up the second, which was never stored, returns that profile. *)
Lemma md5_collision_shares_entry :
  let text1 := "TEXTCOLLBYfGiJUETHQ4hAcKSMd5zYpgqf1YRDhkmxHkhPWptrkoyz28wnI9V0aHeAuaKnak" in
  let text2 := "TEXTCOLLBYfGiJUETHQ4hEcKSMd5zYpgqf1YRDhkmxHkhPWptrkoyz28wnI9V0aHeAuaKnak" in
  text1 ≠ text2 ∧
  get_hash text1 = "faad49866e9498fc1719f5289e7a0269" ∧
  get_hash text2 = "faad49866e9498fc1719f5289e7a0269" ∧
  cache_lookup (∅ : gmap string Dict) text2 = None ∧
  cache_lookup (cache_store ∅ text1 (placeholder "fan1")) text2
    = Some (placeholder "fan1").
Proof.
  intros text1 text2. split; [discriminate|].
  repeat split; vm_compute; reflexivity.
Qed.

(** The batch of the specification: five fans, the first, third and fifth
    cached.  One request goes out, for the second and the fourth. *)
Example five_fans_three_cached :
  let c := cache_store (cache_store (cache_store ∅
             "t1" (placeholder "old1")) "t3" (placeholder "old3"))
             "t5" (placeholder "old5") in
  let service := λ (_ : nat) (_ : list string),
    Parsed [JObj [("Life events", JStr "moved")]; JObj []] in
  let r := process_batch service {| cache := c; calls := [] |}
             [("t1", "f1"); ("t2", "f2"); ("t3", "f3"); ("t4", "f4"); ("t5", "f5")] in
  calls r.1 = [["t2"; "t4"]] ∧
  r.2 = [placeholder "f1"; placeholder "f3"; placeholder "f5";
         [("life_events", JStr "moved"); ("fan_model_id", JStr "f2")];
         placeholder "f4"].
Proof. split; vm_compute; reflexivity. Qed.


(** * Further properties *)

(** ** Segmentation *)

Section more_segmentation.

Lemma StronglySorted_filter_gen {A} (R : A → A → Prop) (P : A → Prop)
    `{!∀ x, Decision (P x)} (l : list A) :
  StronglySorted R l → StronglySorted R (filter P l).
Proof.
  induction 1 as [|x l Hs IH Hall]; [constructor|].
  rewrite filter_cons. destruct (decide (P x)); [|exact IH].
  constructor; [exact IH|].
  rewrite Forall_forall in *. intros y Hy.
  apply Hall. apply list_elem_of_filter in Hy. now destruct Hy.
Qed.

Lemma StronglySorted_weaken_In {A} (R1 R2 : A → A → Prop) (l : list A) :
  (∀ a b, In a l → In b l → R1 a b → R2 a b) →
  StronglySorted R1 l → StronglySorted R2 l.
Proof.
  intros Himp Hs. induction Hs as [|x l Hs IH Hall]; [constructor|].
  constructor.
  - apply IH. intros a b Ha Hb. apply Himp; now right.
  - rewrite Forall_forall in *. intros y Hy. apply Himp.
    + now left.
    + right. now apply list_elem_of_In.
    + now apply Hall.
Qed.

Lemma sort_values_sorted df :
  StronglySorted (λ a b, key_le a b = true) (sort_values df).
Proof.
  apply Sorted_StronglySorted; [intros a b c; apply key_le_trans|].
  apply stable_sort_Sorted, key_le_total.
Qed.

Lemma walk_id st df r :
  In r (walk st df) →
  conversation_id r = fan_model_id (event r) +:+ "_C" +:+ str_of_nat (convo_id r).
Proof.
  revert st. induction df as [|e df IH]; intros st; simpl; [done|].
  intros [<-|Hin]; [reflexivity|]. eapply IH, Hin.
Qed.

Lemma walk_events st df : map event (walk st df) = df.
Proof. revert st. induction df as [|e df IH]; intros; simpl; [done|]. now rewrite IH. Qed.

(** *** Strings that end in "C" and digits *)

Lemma app_cons_unique {A} (c : A) (l1 l2 d1 d2 : list A) :
  c ∉ d1 → c ∉ d2 → l1 ++ c :: d1 = l2 ++ c :: d2 → l1 = l2 ∧ d1 = d2.
Proof.
  intros H1 H2. revert l2.
  induction l1 as [|x l1 IH]; intros [|y l2] Heq; simpl in Heq.
  - now injection Heq.
  - injection Heq as Hc Hd. exfalso. apply H1. rewrite Hd.
    apply elem_of_app. right. left.
  - injection Heq as Hc Hd. exfalso. apply H2. rewrite <- Hd.
    apply elem_of_app. right. left.
  - injection Heq as -> Heq. destruct (IH _ Heq) as [-> ->]. done.
Qed.

Lemma list_ascii_of_string_app (a b : string) :
  list_ascii_of_string (a +:+ b)
  = list_ascii_of_string a ++ list_ascii_of_string b.
Proof.
  induction a as [|c a IH]; [done|].
  change (String c a +:+ b) with (String c (a +:+ b)).
  cbn [list_ascii_of_string]. now rewrite IH.
Qed.

Lemma list_ascii_of_string_inj (a b : string) :
  list_ascii_of_string a = list_ascii_of_string b → a = b.
Proof.
  intros H. rewrite <- (string_of_list_ascii_of_string a),
    <- (string_of_list_ascii_of_string b). now rewrite H.
Qed.

Lemma digits_no_C (d : Decimal.uint) :
  "C"%char ∉ list_ascii_of_string (NilEmpty.string_of_uint d).
Proof.
  induction d; cbn [NilEmpty.string_of_uint list_ascii_of_string];
    [apply not_elem_of_nil|..];
    (apply not_elem_of_cons; split; [discriminate|exact IHd]).
Qed.

Lemma conversation_id_parts (a b : string) (n m : nat) :
  a +:+ "_C" +:+ str_of_nat n = b +:+ "_C" +:+ str_of_nat m → a = b ∧ n = m.
Proof.
  intros H. apply (f_equal list_ascii_of_string) in H.
  rewrite !list_ascii_of_string_app in H.
  change (list_ascii_of_string "_C") with (["_"%char] ++ ["C"%char]) in H.
  rewrite <- !app_assoc in H.
  rewrite !(app_assoc _ ["_"%char]) in H.
  change (["C"%char] ++ ?l) with ("C"%char :: l) in H.
  apply app_cons_unique in H as [Hab Hnm];
    [|apply digits_no_C|apply digits_no_C].
  apply app_inv_tail in Hab.
  split; [now apply list_ascii_of_string_inj|].
  now apply str_of_nat_inj, list_ascii_of_string_inj.
Qed.

End more_segmentation.

(** X1.  [preprocess] keeps exactly the rows that are not system rows, each
    once, sorted by [fan_model_id] and then timestamp; so the rows of every
    fan-model group come in time order. *)
Theorem preprocess_sorted (df : list Event) :
  preprocess df ≡ₚ filter (λ e, is_system e = false) df ∧
  StronglySorted (λ a b, key_le a b = true) (preprocess df) ∧
  ∀ k, StronglySorted (λ a b, timestamp a ≤ timestamp b)
         (filter (λ e, fan_model_id e = k) (preprocess df)).
Proof.
  split; [apply stable_sort_perm|]. split; [apply sort_values_sorted|].
  intros k.
  eapply StronglySorted_weaken_In;
    [|apply StronglySorted_filter_gen, sort_values_sorted].
  intros a b Ha Hb Hab. apply in_filter in Ha as [Hka _], Hb as [Hkb _].
  cbv beta in Hab. rewrite key_le_same_group in Hab by congruence.
  now apply bool_decide_eq_true in Hab.
Qed.

(** X2.  The conversation id names the group and the number: two rows of
    the output with the same [conversation_id] have the same
    [fan_model_id] and the same number, so grouping by [conversation_id]
    never merges rows of two fan-model groups. *)
Theorem conversation_id_unique (df : list Event) (r1 r2 : ConvoRow) :
  In r1 (assign_conversations df) → In r2 (assign_conversations df) →
  conversation_id r1 = conversation_id r2 →
  fan_model_id (event r1) = fan_model_id (event r2) ∧ convo_id r1 = convo_id r2.
Proof.
  intros H1 H2 Heq. unfold assign_conversations in *.
  rewrite (walk_id _ _ _ H1), (walk_id _ _ _ H2) in Heq.
  now apply conversation_id_parts.
Qed.

Lemma conversation_id_unique_witness :
  let a := mk 0 "f" "m" 0 false in
  let b := mk 1 "f" "m" (hours 1) false in
  let r1 := assign_row None a in
  let r2 := assign_row (Some (state_after r1)) b in
  conversation_id r1 = conversation_id r2 ∧
  fan_model_id (event r1) = fan_model_id (event r2) ∧ convo_id r1 = convo_id r2.
Proof.
  intros a b r1 r2. split; [reflexivity|].
  exact (conversation_id_unique [a; b] r1 r2 (or_introl eq_refl)
           (or_intror (or_introl eq_refl)) eq_refl).
Defined.

Section runs.

(** A list of rows in which the number of each row is the number of the row
    before it, plus one when the row is flagged, and the flag is the
    boundary test against the row before. *)
Variable g : list ConvoRow.
Hypothesis Hstep :
  ∀ (i : nat) r1 r2, g !! i = Some r1 → g !! S i = Some r2 →
    new_convo r2
      = bool_decide (model_id (event r2) ≠ model_id (event r1))
        || bool_decide (timestamp (event r2) - timestamp (event r1) > hours 4) ∧
    convo_id r2 = (convo_id r1 + (if new_convo r2 then 1 else 0))%nat.

Lemma convo_id_mono (j i : nat) ri rj :
  (i ≤ j)%nat → g !! i = Some ri → g !! j = Some rj →
  (convo_id ri ≤ convo_id rj)%nat.
Proof.
  revert i ri rj. induction j as [|j IH]; intros i ri rj Hij Hi Hj.
  - assert (i = 0%nat) as -> by lia. simplify_eq. lia.
  - destruct (decide (i = S j)) as [->|Hne]; [simplify_eq; lia|].
    destruct (lookup_lt_is_Some_2 g j) as [r Hr];
      [apply lookup_lt_Some in Hj; lia|].
    specialize (IH i ri r ltac:(lia) Hi Hr).
    destruct (Hstep j r rj Hr Hj) as [_ Hc]. lia.
Qed.

Lemma same_convo_no_boundary (i j m : nat) ri rj rm rm' :
  g !! i = Some ri → g !! j = Some rj → convo_id ri = convo_id rj →
  (i ≤ m)%nat → (m < j)%nat → g !! m = Some rm → g !! S m = Some rm' →
  convo_id rm = convo_id ri ∧ convo_id rm' = convo_id ri ∧ new_convo rm' = false.
Proof.
  intros Hi Hj Heq Him Hmj Hm Hm'.
  pose proof (convo_id_mono m i ri rm Him Hi Hm).
  pose proof (convo_id_mono j (S m) rm' rj ltac:(lia) Hm' Hj).
  destruct (Hstep m rm rm' Hm Hm') as [_ Hc].
  destruct (new_convo rm'); [lia|]. repeat split; lia.
Qed.

Lemma same_convo_same_model (j i : nat) ri rj :
  (i ≤ j)%nat → g !! i = Some ri → g !! j = Some rj →
  convo_id ri = convo_id rj → model_id (event ri) = model_id (event rj).
Proof.
  revert rj. induction j as [|j IH]; intros rj Hij Hi Hj Heq.
  - assert (i = 0%nat) as -> by lia. now simplify_eq.
  - destruct (decide (i = S j)) as [->|Hne]; [now simplify_eq|].
    destruct (lookup_lt_is_Some_2 g j) as [r Hr];
      [apply lookup_lt_Some in Hj; lia|].
    destruct (same_convo_no_boundary i (S j) j ri rj r rj)
      as (Hr_id & _ & Hflag); try done; try lia.
    rewrite (IH r) by (done || lia).
    destruct (Hstep j r rj Hr Hj) as [Hnew _]. rewrite Hflag in Hnew.
    symmetry in Hnew. apply orb_false_iff in Hnew as [Hmodel _].
    apply bool_decide_eq_false in Hmodel.
    destruct (decide (model_id (event rj) = model_id (event r))); [done|].
    now destruct Hmodel.
Qed.

End runs.

(** X3.  A conversation is one run of its group: when two rows of a group
    are in the same conversation, every row between them is in it too, all
    these rows name one model, and each follows the one before by at most
    four hours. *)
Theorem conversation_is_a_run (df : list Event) (k : string)
    (i j : nat) (ri rj : ConvoRow) :
  let g := filter (λ r, fan_model_id (event r) = k) (assign_conversations df) in
  (i ≤ j)%nat → g !! i = Some ri → g !! j = Some rj →
  conversation_id ri = conversation_id rj →
  model_id (event ri) = model_id (event rj) ∧
  (∀ (m : nat) rm, (i ≤ m ≤ j)%nat → g !! m = Some rm →
     conversation_id rm = conversation_id ri ∧
     model_id (event rm) = model_id (event ri)) ∧
  (∀ (m : nat) rm rm', (i ≤ m)%nat → (m < j)%nat →
     g !! m = Some rm → g !! S m = Some rm' →
     timestamp (event rm') - timestamp (event rm) ≤ hours 4).
Proof.
  intros g Hij Hi Hj Hcid.
  destruct (group_rows df k) as [Hstep Hid]. fold g in Hstep, Hid.
  assert (Hin : ∀ (n : nat) r, g !! n = Some r → In r g).
  { intros n r Hn. eapply list_elem_of_In, list_elem_of_lookup_2, Hn. }
  assert (Heq : convo_id ri = convo_id rj).
  { rewrite (Hid _ (Hin _ _ Hi)), (Hid _ (Hin _ _ Hj)) in Hcid.
    now apply conversation_id_parts in Hcid. }
  split; [eapply (same_convo_same_model g Hstep j i); eassumption|].
  split.
  - intros m rm [Him Hmj] Hm.
    assert (Hmid : convo_id rm = convo_id ri).
    { pose proof (convo_id_mono g Hstep m i ri rm Him Hi Hm).
      pose proof (convo_id_mono g Hstep j m rm rj Hmj Hm Hj). lia. }
    split.
    + rewrite (Hid _ (Hin _ _ Hm)), (Hid _ (Hin _ _ Hi)). now rewrite Hmid.
    + symmetry. eapply (same_convo_same_model g Hstep m i); eauto.
  - intros m rm rm' Him Hmj Hm Hm'.
    destruct (same_convo_no_boundary g Hstep i j m ri rj rm rm')
      as (_ & _ & Hflag); try done.
    destruct (Hstep m rm rm' Hm Hm') as [Hnew _]. rewrite Hflag in Hnew.
    symmetry in Hnew. apply orb_false_iff in Hnew as [_ Hgap].
    apply bool_decide_eq_false in Hgap. lia.
Qed.

Lemma conversation_is_a_run_witness :
  let a := mk 0 "f" "m" 0 false in
  let b := mk 1 "f" "m" (hours 3) false in
  let c := mk 2 "f" "m" (hours 6) true in
  let r1 := assign_row None a in
  let r2 := assign_row (Some (state_after r1)) b in
  let r3 := assign_row (Some (state_after r2)) c in
  conversation_id r1 = conversation_id r3 ∧
  model_id (event r1) = model_id (event r3) ∧
  timestamp (event r3) - timestamp (event r2) ≤ hours 4.
Proof.
  intros a b c r1 r2 r3. split; [reflexivity|].
  pose proof (conversation_is_a_run [a; b; c] "f_m" 0 2 r1 r3
                ltac:(lia) eq_refl eq_refl eq_refl) as (Hmodel & _ & Hgap).
  split; [exact Hmodel|].
  exact (Hgap 1%nat r2 r3 ltac:(lia) ltac:(lia) eq_refl eq_refl).
Defined.

(** ** Conversation features *)

Section more_features.

Lemma sum_Z_add {A} (u v : A → Z) (ks : list A) :
  sum_Z (map (λ k, u k + v k) ks) = sum_Z (map u ks) + sum_Z (map v ks).
Proof. induction ks as [|k ks IH]; simpl; [done|]. rewrite IH. lia. Qed.

Lemma sum_Z_indicator (a : string) (ks : list string) :
  NoDup ks → In a ks →
  sum_Z (map (λ k, if decide (a = k) then 1 else 0) ks) = 1.
Proof.
  induction 1 as [|k ks Hk Hnd IH]; intros Hin; [done|]. simpl.
  destruct (decide (a = k)) as [<-|Hne].
  - assert (Hzero : ∀ l : list string, a ∉ l →
      sum_Z (map (λ k, if decide (a = k) then 1 else 0) l) = 0).
    { induction l as [|x l IHl]; intros Hnin; [done|]. simpl.
      apply not_elem_of_cons in Hnin as [Hx Hl].
      rewrite decide_False by done. now rewrite IHl. }
    now rewrite Hzero.
  - destruct Hin as [->|Hin]; [done|]. now rewrite IH.
Qed.

(** The groups of a [groupby] share out the rows: their sizes add up to
    the number of rows. *)
Lemma sum_group_sizes {A} (f : A → string) (ks : list string) (l : list A) :
  NoDup ks → (∀ x, In x l → In (f x) ks) →
  sum_Z (map (λ k, Z.of_nat (length (filter (λ x, f x = k) l))) ks)
  = Z.of_nat (length l).
Proof.
  intros Hnd. induction l as [|x l IH]; intros Hcover.
  - simpl. induction ks as [|k ks IHk]; [done|]. simpl.
    apply NoDup_cons in Hnd as [_ Hnd]. now rewrite IHk.
  - rewrite (map_ext _ (λ k, (if decide (f x = k) then 1 else 0)
                            + Z.of_nat (length (filter (λ x, f x = k) l)))).
    + rewrite sum_Z_add, sum_Z_indicator, IH.
      * simpl length. lia.
      * intros y Hy. apply Hcover. now right.
      * done.
      * apply Hcover. now left.
    + intros k. rewrite filter_cons. case_decide; simpl length; lia.
Qed.

Lemma groupby_keys_NoDup (keys : list string) : NoDup (groupby_keys keys).
Proof.
  unfold groupby_keys. rewrite stable_sort_perm. apply NoDup_remove_dups.
Qed.

Lemma features_of_group_fields global_max c group f :
  features_of_group global_max c group = Some f →
  group ≠ [] ∧
  f_conversation_id f = c ∧
  message_count f = Z.of_nat (length group) ∧
  purchase_count f
    = Z.of_nat (length (filter (λ r, purchase (event r) = true) group)) ∧
  revenue f = purchase_count f ∧
  days_since_last_message f
    = td_days (global_max - max_timestamp (map (λ r, timestamp (event r)) group)) ∧
  active f = bool_decide (days_since_last_message f < 2).
Proof.
  destruct group as [|r group]; [done|]. intros [= <-]. done.
Qed.

Lemma omap_Forall2 {A B} (F : A → option B) (ks : list A) :
  (∀ k, In k ks → is_Some (F k)) →
  Forall2 (λ k y, F k = Some y) ks (omap F ks).
Proof.
  induction ks as [|k ks IH]; intros Hs; [constructor|].
  destruct (Hs k) as [y Hy]; [now left|].
  cbn [omap list_omap]. rewrite Hy. constructor; [done|].
  apply IH. intros k' Hk'. apply Hs. now right.
Qed.

Lemma Forall2_map_eq {A B C} (R : A → B → Prop) (h : B → C) (u : A → C) ks ys :
  (∀ k y, R k y → h y = u k) → Forall2 R ks ys → map h ys = map u ks.
Proof.
  intros HR. induction 1 as [|k y ks ys Hky _ IH]; [done|].
  simpl. now rewrite IH, (HR _ _ Hky).
Qed.

(** The rows of [compute_features], one by one against the conversations. *)
Lemma compute_features_rows df :
  Forall2 (λ c f,
      features_of_group (max_timestamp (map (λ r, timestamp (event r)) df)) c
        (filter (λ r, conversation_id r = c) df) = Some f)
    (groupby_keys (map conversation_id df)) (compute_features df).
Proof.
  unfold compute_features. apply omap_Forall2.
  intros c Hc. apply groupby_keys_In, in_map_iff in Hc as (r & <- & Hr).
  destruct (filter (λ r0, conversation_id r0 = conversation_id r) df)
    as [|r' g] eqn:Hf; [|simpl; eauto].
  assert (Hin : In r (filter (λ r0, conversation_id r0 = conversation_id r) df))
    by now apply in_filter.
  rewrite Hf in Hin. destruct Hin.
Qed.

Lemma max_timestamp_spec (l : list Z) :
  l ≠ [] → In (max_timestamp l) l ∧ ∀ x, In x l → x ≤ max_timestamp l.
Proof. destruct l as [|t l]; [done|]. intros _. apply foldr_max_spec. Qed.

Lemma rows_before_no_purchase (group : list ConvoRow) :
  filter (λ r, purchase (event r) = true) group = [] →
  rows_before_first_purchase group = Z.of_nat (length group).
Proof.
  induction group as [|r group IH]; [done|].
  rewrite filter_cons. destruct (decide (purchase (event r) = true)); [done|].
  intros Hf. cbn [rows_before_first_purchase].
  destruct (purchase (event r)); [done|]. rewrite IH by done.
  simpl length. lia.
Qed.

Lemma rows_before_by_label (group : list ConvoRow) first p0 rest :
  consecutive_labels group → head group = Some first →
  filter (λ r, purchase (event r) = true) group = p0 :: rest →
  index (event p0) - index (event first) = rows_before_first_purchase group.
Proof.
  revert first. induction group as [|r group IH]; intros first Hc Hh Hf; [done|].
  simpl in Hh. simplify_eq. rewrite filter_cons in Hf.
  cbn [rows_before_first_purchase].
  destruct (decide (purchase (event first) = true)) as [Hp|Hp].
  - rewrite Hp. injection Hf as -> _. lia.
  - destruct (purchase (event first)); [done|].
    destruct group as [|r' group]; [done|].
    rewrite <- (IH r'); [|intros i a b Ha Hb; exact (Hc (S i) a b Ha Hb)|done|done].
    pose proof (Hc 0%nat first r' eq_refl eq_refl). lia.
Qed.

End more_features.

(** X4.  [compute_features] returns one row per conversation, in the order
    of the sorted conversation ids; every row of the input is counted in
    exactly one conversation (the message counts add up to the number of
    rows), and so is every purchase row. *)
Theorem features_cover_the_rows (df : list ConvoRow) :
  map f_conversation_id (compute_features df)
    = groupby_keys (map conversation_id df) ∧
  NoDup (map f_conversation_id (compute_features df)) ∧
  sum_Z (map message_count (compute_features df)) = Z.of_nat (length df) ∧
  sum_Z (map purchase_count (compute_features df))
    = Z.of_nat (length (filter (λ r, purchase (event r) = true) df)).
Proof.
  pose proof (compute_features_rows df) as Hrows.
  assert (Hids : map f_conversation_id (compute_features df)
                 = groupby_keys (map conversation_id df)).
  { rewrite <- (map_id (groupby_keys _)).
    eapply Forall2_map_eq; [|exact Hrows].
    intros c f Hf. now apply features_of_group_fields in Hf. }
  split; [exact Hids|]. split; [rewrite Hids; apply groupby_keys_NoDup|].
  split.
  - erewrite Forall2_map_eq; [|intros c f Hf;
      apply features_of_group_fields in Hf as (_ & _ & Hm & _); exact Hm|exact Hrows].
    apply sum_group_sizes; [apply groupby_keys_NoDup|].
    intros r Hr. apply groupby_keys_In. now apply in_map.
  - erewrite Forall2_map_eq; [|intros c f Hf;
      apply features_of_group_fields in Hf as (_ & _ & _ & Hp & _); exact Hp|exact Hrows].
    erewrite map_ext.
    + apply (sum_group_sizes conversation_id); [apply groupby_keys_NoDup|].
      intros r Hr. apply groupby_keys_In.
      apply in_filter in Hr as [_ Hr]. now apply in_map.
    + intros c. cbv beta. f_equal. f_equal.
      rewrite !list_filter_filter. apply list_filter_iff. tauto.
Qed.

(** X5.  Every row of [compute_features] counts at least one message and
    not more purchases than messages, its revenue is its purchase count,
    its days since the last message are not negative, and it is active
    exactly when they are below 2; and unless the input is empty, some
    conversation (one that holds the latest message) is active. *)
Theorem features_are_sane (df : list ConvoRow) :
  (∀ f, In f (compute_features df) →
     1 ≤ message_count f ∧
     0 ≤ purchase_count f ∧ purchase_count f ≤ message_count f ∧
     revenue f = purchase_count f ∧
     0 ≤ days_since_last_message f ∧
     (active f = true ↔ days_since_last_message f < 2)) ∧
  (df ≠ [] →
   ∃ f, In f (compute_features df) ∧
        days_since_last_message f = 0 ∧ active f = true).
Proof.
  pose proof (compute_features_rows df) as Hrows.
  set (gm := max_timestamp (map (λ r, timestamp (event r)) df)) in *.
  assert (Hgroup : ∀ c, filter (λ r, conversation_id r = c) df ≠ [] →
    max_timestamp (map (λ r, timestamp (event r))
                     (filter (λ r, conversation_id r = c) df)) ≤ gm).
  { intros c Hne.
    destruct (max_timestamp_spec (map (λ r, timestamp (event r))
                (filter (λ r, conversation_id r = c) df))) as [Hin _].
    { intros Hnil. apply map_eq_nil in Hnil. done. }
    apply in_map_iff in Hin as (r & <- & Hr). apply in_filter in Hr as [_ Hr].
    apply max_timestamp_spec; [|now apply (in_map (λ r, timestamp (event r)))].
    intros Hnil. apply map_eq_nil in Hnil. now subst. }
  assert (Hsome : ∀ c, In c (groupby_keys (map conversation_id df)) →
    filter (λ r, conversation_id r = c) df ≠ []).
  { intros c Hc Hnil.
    apply groupby_keys_In, in_map_iff in Hc as (r & <- & Hr).
    assert (Hin : In r (filter (λ r0, conversation_id r0 = conversation_id r) df))
      by now apply in_filter.
    rewrite Hnil in Hin. destruct Hin. }
  split.
  - intros f Hf. unfold compute_features in Hf.
    apply list_elem_of_In, list_elem_of_omap in Hf as (c & Hc & Hfc).
    fold gm in Hfc.
    apply features_of_group_fields in Hfc as (Hne & _ & Hm & Hp & Hr & Hd & Ha).
    specialize (Hgroup c Hne).
    assert (Hdays : 0 ≤ days_since_last_message f).
    { rewrite Hd. unfold td_days, days. apply Z.div_pos; lia. }
    split.
    { rewrite Hm. destruct (filter (λ r, conversation_id r = c) df); [done|].
      simpl length. lia. }
    split; [rewrite Hp; lia|].
    split; [rewrite Hm, Hp; apply inj_le, length_filter|].
    split; [exact Hr|]. split; [exact Hdays|].
    rewrite Ha. apply bool_decide_eq_true.
  - intros Hdf.
    destruct (max_timestamp_spec (map (λ r, timestamp (event r)) df))
      as [Hin _].
    { intros Hnil. apply map_eq_nil in Hnil. done. }
    fold gm in Hin. apply in_map_iff in Hin as (r & Hts & Hr).
    set (c := conversation_id r).
    assert (Hc : In c (groupby_keys (map conversation_id df)))
      by now apply groupby_keys_In, in_map.
    destruct (features_of_group gm c (filter (λ r, conversation_id r = c) df))
      as [f|] eqn:Hf.
    2: { destruct (filter (λ r, conversation_id r = c) df) eqn:Hg;
           [now apply Hsome in Hc|done]. }
    exists f. split.
    { unfold compute_features. apply list_elem_of_In, list_elem_of_omap.
      exists c. split; [now apply list_elem_of_In|exact Hf]. }
    apply features_of_group_fields in Hf as (Hne & _ & _ & _ & _ & Hd & Ha).
    specialize (Hgroup c Hne).
    assert (Hmax : gm ≤ max_timestamp (map (λ r, timestamp (event r))
                          (filter (λ r, conversation_id r = c) df))).
    { rewrite <- Hts. apply max_timestamp_spec.
      - intros Hnil. apply map_eq_nil in Hnil. done.
      - apply (in_map (λ r, timestamp (event r))). now apply in_filter. }
    assert (Hzero : days_since_last_message f = 0).
    { rewrite Hd. replace (gm - _) with 0 by lia. reflexivity. }
    split; [exact Hzero|]. rewrite Ha, Hzero. reflexivity.
Qed.

Lemma features_are_sane_witness :
  let rows := assign_conversations
    (preprocess [mk 0 "f" "m" 0 true; mk 1 "f" "m" (days 3) false]) in
  map (λ f, (f_conversation_id f, days_since_last_message f, active f))
      (compute_features rows)
    = [("f_m_C1", 3, false); ("f_m_C2", 0, true)] ∧
  ∃ f, In f (compute_features rows) ∧
       days_since_last_message f = 0 ∧ active f = true.
Proof.
  intros rows. split; [reflexivity|].
  apply (proj2 (features_are_sane rows)). discriminate.
Defined.

(** X6.  When the index labels of a conversation's rows grow by one from
    row to row (its rows stood together and in time order in the log),
    [messages_before_first_purchase] is the number of rows before the first
    purchase row; without a purchase row it is the number of rows, whatever
    the labels. *)
Theorem messages_before_first_purchase_exact (global_max : Z) (c : string)
    (group : list ConvoRow) (f : Features) :
  features_of_group global_max c group = Some f →
  (consecutive_labels group ∨
   filter (λ r, purchase (event r) = true) group = []) →
  messages_before_first_purchase f = rows_before_first_purchase group.
Proof.
  intros Hf Hlabels. destruct group as [|first group]; [done|].
  injection Hf as <-. cbn [messages_before_first_purchase].
  destruct (filter (λ r, purchase (event r) = true) (first :: group))
    as [|p0 rest] eqn:Hp.
  - symmetry. now apply rows_before_no_purchase.
  - destruct Hlabels as [Hlabels|Hnone]; [|done].
    eapply rows_before_by_label; [exact Hlabels|reflexivity|exact Hp].
Qed.

Lemma messages_before_first_purchase_exact_witness :
  let rows := assign_conversations
    (preprocess [mk 0 "f" "m" 0 false; mk 1 "f" "m" (hours 1) false;
                 mk 2 "f" "m" (hours 2) true]) in
  ∃ f, features_of_group (hours 2) "f_m_C1" rows = Some f ∧
       messages_before_first_purchase f = 2 ∧
       rows_before_first_purchase rows = 2.
Proof.
  intros rows.
  destruct (features_of_group (hours 2) "f_m_C1" rows) as [f|] eqn:Hf;
    [|discriminate Hf].
  exists f. split; [reflexivity|].
  assert (Hlabels : consecutive_labels rows).
  { intros [|[|[|i]]] r r' Hr Hr'; vm_compute in Hr, Hr';
      simplify_eq; reflexivity. }
  pose proof (messages_before_first_purchase_exact (hours 2) "f_m_C1" rows f
                Hf (or_introl Hlabels)) as Heq.
  split; [rewrite Heq|]; reflexivity.
Defined.

(** ** Stage assignment over the whole log *)

Section more_stages.

Lemma filter_all {A} (P : A → Prop) `{!∀ x, Decision (P x)} (l : list A) :
  (∀ x, In x l → P x) → filter P l = l.
Proof.
  induction l as [|a l IH]; intros Hall; [done|].
  rewrite filter_cons_True by (apply Hall; now left).
  f_equal. apply IH. intros x Hx. apply Hall. now right.
Qed.



(** The label of a row of the whole log. *)
Lemma assign_stages_In df e s :
  In (e, s) (assign_stages df) ↔
  In e df ∧
  s = stage_of
        (map timestamp
           (filter (λ e', purchase e' = true)
              (filter (λ e', fan_model_id e' = fan_model_id e) df)))
        (timestamp e).
Proof.
  unfold assign_stages. rewrite in_flat_map. split.
  - intros (k & Hk & Hin).
    apply assign_stages_group_In in Hin as [Hin ->].
    apply in_filter in Hin as [<- Hin].
    split; [exact Hin|]. apply group_stage_of.
  - intros [Hin ->]. exists (fan_model_id e). split.
    + apply groupby_keys_In. now apply in_map.
    + apply assign_stages_group_In. split; [now apply in_filter|].
      symmetry. apply group_stage_of.
Qed.

Lemma stage_of_mono pts t1 t2 :
  t1 ≤ t2 → (stage_rank (stage_of pts t1) ≤ stage_rank (stage_of pts t2))%nat.
Proof.
  intros Ht. unfold stage_of. destruct pts as [|p ps]; [done|].
  cbv zeta. repeat case_decide; simpl; lia.
Qed.

Lemma purchase_times_In df k t :
  In t (map timestamp
          (filter (λ e', purchase e' = true)
             (filter (λ e', fan_model_id e' = k) df))) ↔
  ∃ p, In p df ∧ fan_model_id p = k ∧ purchase p = true ∧ timestamp p = t.
Proof.
  rewrite in_map_iff. split.
  - intros (p & Ht & Hp). apply in_filter in Hp as [Hpur Hp].
    apply in_filter in Hp as [Hk Hp]. eauto.
  - intros (p & Hp & Hk & Hpur & Ht). exists p. split; [done|].
    apply in_filter. split; [done|]. now apply in_filter.
Qed.

End more_stages.


(** X8.  Within a fan-model pair the stage never goes back in time: of two
    rows of the pair, the later one has the same or a later stage (rows
    with the same timestamp have the same stage). *)
Theorem stage_follows_time (df : list Event) (e1 e2 : Event) (s1 s2 : Stage) :
  In (e1, s1) (assign_stages df) → In (e2, s2) (assign_stages df) →
  fan_model_id e1 = fan_model_id e2 → timestamp e1 ≤ timestamp e2 →
  (stage_rank s1 ≤ stage_rank s2)%nat ∧
  (timestamp e1 = timestamp e2 → s1 = s2).
Proof.
  intros H1 H2 Hk Ht.
  apply assign_stages_In in H1 as [_ ->], H2 as [_ ->]. rewrite Hk.
  split; [now apply stage_of_mono|]. now intros ->.
Qed.

Lemma stage_follows_time_witness :
  let a := mk 0 "f" "m" 0 true in
  let b := mk 1 "f" "m" 5 false in
  let c := mk 2 "f" "m" 9 true in
  assign_stages [b; c; a] = [(a, stage_1); (b, stage_2); (c, stage_2)] ∧
  (stage_rank stage_1 ≤ stage_rank stage_2)%nat.
Proof.
  intros a b c. split; [reflexivity|].
  exact (proj1 (stage_follows_time [b; c; a] a b stage_1 stage_2
           (or_introl eq_refl) (or_intror (or_introl eq_refl)) eq_refl
           ltac:(vm_compute; discriminate))).
Defined.

(** X9.  A purchase row is never in stage_3, and a fan-model pair has a
    stage_2 row exactly when it has purchase rows at two different
    timestamps. *)
Theorem stage_2_needs_two_purchases (df : list Event) :
  (∀ e s, In (e, s) (assign_stages df) → purchase e = true → s ≠ stage_3) ∧
  (∀ k,
     (∃ e, In (e, stage_2) (assign_stages df) ∧ fan_model_id e = k) ↔
     (∃ p q, In p df ∧ In q df ∧ fan_model_id p = k ∧ fan_model_id q = k ∧
             purchase p = true ∧ purchase q = true ∧
             timestamp p ≠ timestamp q)).
Proof.
  split.
  - intros e s Hin Hp. apply assign_stages_In in Hin as [Hin ->].
    assert (Ht : In (timestamp e)
      (map timestamp (filter (λ e', purchase e' = true)
         (filter (λ e', fan_model_id e' = fan_model_id e) df))))
      by (apply purchase_times_In; eauto).
    unfold stage_of.
    destruct (map timestamp _) as [|p ps]; [done|]. cbv zeta.
    destruct (foldr_max_spec p ps) as [_ Hmax]. specialize (Hmax _ Ht).
    repeat case_decide; (done || lia).
  - intros k. split.
    + intros (e & Hin & <-). apply assign_stages_In in Hin as [Hin Hs].
      unfold stage_of in Hs.
      destruct (map timestamp _) as [|p ps] eqn:Hpts; [done|]. cbv zeta in Hs.
      destruct (foldr_min_spec p ps) as [Hmin _].
      destruct (foldr_max_spec p ps) as [Hmax _].
      rewrite <- Hpts in Hmin, Hmax.
      apply purchase_times_In in Hmin as (a & Ha & Hka & Hpa & Hta).
      apply purchase_times_In in Hmax as (b & Hb & Hkb & Hpb & Htb).
      exists a, b. repeat split; try done.
      rewrite Hta, Htb. repeat case_decide; (done || lia).
    + intros (a & b & Ha & Hb & Hka & Hkb & Hpa & Hpb & Hne).
      assert (Hta : In (timestamp a)
        (map timestamp (filter (λ e', purchase e' = true)
           (filter (λ e', fan_model_id e' = k) df))))
        by (apply purchase_times_In; eauto).
      assert (Htb : In (timestamp b)
        (map timestamp (filter (λ e', purchase e' = true)
           (filter (λ e', fan_model_id e' = k) df))))
        by (apply purchase_times_In; eauto).
      destruct (map timestamp _) as [|p ps] eqn:Hpts; [done|].
      destruct (foldr_min_spec p ps) as [_ Hmin].
      destruct (foldr_max_spec p ps) as [Hmax_in Hmax].
      pose proof (Hmin _ Hta). pose proof (Hmin _ Htb).
      pose proof (Hmax _ Hta). pose proof (Hmax _ Htb).
      rewrite <- Hpts in Hmax_in.
      apply purchase_times_In in Hmax_in as (e & He & Hke & Hpe & Hte).
      exists e. split; [|done].
      apply assign_stages_In. split; [done|].
      rewrite Hke, Hpts. unfold stage_of. cbv zeta. rewrite Hte.
      repeat case_decide; (done || lia).
Qed.

Lemma stage_2_needs_two_purchases_witness :
  let a := mk 0 "f" "m" 0 true in
  let c := mk 2 "f" "m" 9 true in
  ∃ e, In (e, stage_2) (assign_stages [a; c]) ∧ fan_model_id e = "f_m".
Proof.
  intros a c.
  apply (proj2 (proj2 (stage_2_needs_two_purchases [a; c]) "f_m")).
  exists a, c. repeat split; try (now left); try (right; now left).
  discriminate.
Defined.

(** ** The profiler over a whole run *)

Section more_profiler.

Lemma key_map_get_moves k : In k (map fst key_map) → key_map_get k ≠ k.
Proof.
  simpl. intros H.
  repeat (destruct H as [<-|H]; [vm_compute; discriminate|]). destruct H.
Qed.

Lemma dict_keys_dict_set_In d k v k' :
  In k' (dict_keys (dict_set d k v)) ↔ In k' (dict_keys d) ∨ k' = k.
Proof.
  destruct (decide (k ∈ dict_keys d)) as [Hin|Hin].
  - rewrite dict_keys_dict_set_old by done. split; [now left|].
    intros [?| ->]; [done|]. now apply list_elem_of_In.
  - rewrite dict_keys_dict_set_new by done. rewrite in_app_iff. simpl.
    split; [intros [?|[<-|[]]]|intros [?| ->]]; auto.
Qed.

Lemma normalize_keys_keys d k :
  In k (dict_keys (normalize_keys d)) ↔
  ∃ k0, In k0 (dict_keys d) ∧ k = key_map_get k0.
Proof.
  unfold normalize_keys.
  assert (Hgen : ∀ acc,
    In k (dict_keys (foldl (λ acc kv, dict_set acc (key_map_get kv.1) kv.2) acc d)) ↔
    In k (dict_keys acc) ∨ ∃ k0, In k0 (dict_keys d) ∧ k = key_map_get k0).
  { induction d as [|[k1 v1] d IH]; intros acc; simpl.
    - split; [now left|]. intros [?|(k0 & [] & _)]. done.
    - rewrite IH, dict_keys_dict_set_In. split.
      + intros [[?| ->]|(k0 & Hk0 & ->)]; eauto.
      + intros [?|(k0 & [<-|Hk0] & ->)]; eauto. }
  rewrite Hgen. simpl. split; [intros [[]|?]; done|now right].
Qed.

Lemma normalize_keys_rename_gen d acc :
  NoDup (dict_keys acc ++ map key_map_get (dict_keys d)) →
  foldl (λ acc kv, dict_set acc (key_map_get kv.1) kv.2) acc d
  = acc ++ map (λ kv, (key_map_get kv.1, kv.2)) d.
Proof.
  revert acc. induction d as [|[k v] d IH]; intros acc Hnd; simpl.
  - now rewrite app_nil_r.
  - simpl in Hnd. rewrite dict_set_fresh.
    + rewrite IH.
      * now rewrite <- app_assoc.
      * unfold dict_keys in *. rewrite map_app. simpl.
        now rewrite <- app_assoc.
    + apply NoDup_app in Hnd as (_ & Hdisj & _).
      intros Hin. apply (Hdisj _ Hin). left.
Qed.

Lemma dict_get_set d k v : dict_get (dict_set d k v) k = Some v.
Proof.
  induction d as [|[k' v'] d IH]; simpl.
  - now rewrite decide_True.
  - destruct (decide (k' = k)) as [->|Hne]; simpl.
    + now rewrite decide_True.
    + now rewrite decide_False.
Qed.

(** *** Batches *)

Lemma batches_nil fuel : batches fuel [] = [].
Proof. now destruct fuel. Qed.

Lemma batches_spec fuel (fans : list (string * string)) :
  (length fans ≤ fuel)%nat →
  concat (batches fuel fans) = fans ∧
  Forall (λ b, b ≠ [] ∧ (length b ≤ BATCH_SIZE)%nat ∧ ∀ q, In q b → In q fans)
         (batches fuel fans) ∧
  length (batches fuel fans) = ((length fans + 19) `div` 20)%nat.
Proof.
  revert fans. induction fuel as [|fuel IH]; intros fans Hlen.
  - destruct fans; [|simpl in Hlen; lia]. repeat split; constructor.
  - destruct fans as [|q fans]; [repeat split; constructor|].
    cbn [batches].
    destruct (IH (drop BATCH_SIZE (q :: fans))) as (Hcat & Hall & Hn).
    { rewrite length_drop. unfold BATCH_SIZE. simpl length in *. lia. }
    split; [|split].
    + cbn [concat]. rewrite Hcat. apply take_drop.
    + constructor.
      * split; [done|]. split; [rewrite length_take; lia|].
        intros x Hx. rewrite <- (take_drop BATCH_SIZE (q :: fans)).
        apply in_app_iff. now left.
      * eapply Forall_impl; [exact Hall|].
        intros b (Hb & Hlb & Hin). repeat split; try done.
        intros x Hx. specialize (Hin x Hx).
        rewrite <- (take_drop BATCH_SIZE (q :: fans)).
        apply in_app_iff. now right.
    + cbn [length]. rewrite Hn, length_drop. unfold BATCH_SIZE.
      simpl length.
      destruct (decide (20 ≤ S (length fans))%nat) as [Hbig|Hsmall].
      * replace (S (length fans) + 19)%nat
          with ((S (length fans) - 20 + 19) + 1 * 20)%nat by lia.
        rewrite Nat.div_add by done. lia.
      * replace (S (length fans) - 20)%nat with 0%nat by lia.
        change ((0 + 19) `div` 20)%nat with 0%nat.
        apply Nat.div_unique with (r := (length fans)%nat); lia.
Qed.

(** *** A warm cache *)

Lemma omap_all_Some {A B} (F : A → option B) (l : list A) :
  (∀ x, In x l → is_Some (F x)) → length (omap F l) = length l.
Proof.
  induction l as [|x l IH]; intros Hall; [done|].
  destruct (Hall x) as [y Hy]; [now left|].
  cbn [omap list_omap]. rewrite Hy. simpl. f_equal.
  apply IH. intros z Hz. apply Hall. now right.
Qed.

Lemma process_batch_warm service w batch :
  (∀ q, In q batch → is_Some (cache_lookup (cache w) q.1)) →
  process_batch service w batch
  = (w, omap (λ q, (λ p, tag p q.2) <$> cache_lookup (cache w) q.1) batch).
Proof.
  intros Hhit. rewrite process_batch_unfold. cbv zeta.
  rewrite filter_none; [done|].
  intros q Hq Hmiss. destruct (Hhit q Hq) as [p Hp]. congruence.
Qed.

Lemma run_batches_warm service w bs :
  (∀ b q, In b bs → In q b → is_Some (cache_lookup (cache w) q.1)) →
  run_batches service w bs
  = (w, omap (λ q, (λ p, tag p q.2) <$> cache_lookup (cache w) q.1) (concat bs)).
Proof.
  induction bs as [|b bs IH]; intros Hhit; [done|].
  cbn [run_batches concat].
  rewrite process_batch_warm by (intros q Hq; apply (Hhit b q); [now left|done]).
  rewrite IH by (intros b2 q Hb2 Hq; apply (Hhit b2 q); [now right|done]).
  now rewrite omap_app.
Qed.

Lemma profile_texts_warm service w fans :
  (∀ q, In q fans → is_Some (cache_lookup (cache w) q.1)) →
  profile_texts service w fans
  = (w, omap (λ q, (λ p, tag p q.2) <$> cache_lookup (cache w) q.1) fans).
Proof.
  intros Hhit. unfold profile_texts.
  destruct (batches_spec (length fans) fans) as (Hcat & Hall & _); [done|].
  rewrite run_batches_warm, Hcat; [done|].
  intros b q Hb Hq. apply Hhit.
  rewrite Forall_forall in Hall.
  apply (Hall b); [now apply list_elem_of_In|done].
Qed.

End more_profiler.

(** X10.  [normalize_keys] gives a profile in one fixed form: normalising
    again changes nothing, no key occurs twice, the keys are the images of
    the original keys under the table, and none of the nine humanised
    names is left. *)
Theorem normalize_keys_canonical (d : Dict) :
  normalize_keys (normalize_keys d) = normalize_keys d ∧
  NoDup (dict_keys (normalize_keys d)) ∧
  (∀ k, In k (dict_keys (normalize_keys d)) ↔
        ∃ k0, In k0 (dict_keys d) ∧ k = key_map_get k0) ∧
  (∀ k, In k (dict_keys (normalize_keys d)) → ¬ In k (map fst key_map)).
Proof.
  destruct (normalize_keys_normal d) as [Hnd Hfix].
  split; [apply normalize_keys_idem|]. split; [exact Hnd|].
  split; [apply normalize_keys_keys|].
  intros k Hk Hdom. rewrite Forall_forall in Hfix.
  apply (key_map_get_moves k Hdom). apply Hfix. now apply list_elem_of_In.
Qed.

(** X11.  When no two keys of a profile get the same name, [normalize_keys]
    renames the keys in place: same values, same order. *)
Theorem normalize_keys_renames (d : Dict) :
  NoDup (map key_map_get (dict_keys d)) →
  normalize_keys d = map (λ kv, (key_map_get kv.1, kv.2)) d.
Proof.
  intros Hnd. unfold normalize_keys.
  now rewrite normalize_keys_rename_gen.
Qed.

Lemma normalize_keys_renames_witness :
  normalize_keys [("Life events", JStr "moved"); ("mood", JStr "calm");
                  ("Job or career", JNull)]
  = [("life_events", JStr "moved"); ("mood", JStr "calm");
     ("job_or_career", JNull)].
Proof.
  apply (normalize_keys_renames
           [("Life events", JStr "moved"); ("mood", JStr "calm");
            ("Job or career", JNull)]).
  vm_compute. repeat constructor; intros H;
    repeat (apply elem_of_cons in H as [H|H]; [discriminate H|]);
    now apply elem_of_nil in H.
Defined.

(** X12.  The batches of a run are the fans in their order, cut every 20:
    put end to end they give back the list, none is empty or longer than
    20, and there are as many as the number of fans divided by 20, rounded
    up. *)
Theorem batches_cover (fans : list (string * string)) :
  concat (batches (length fans) fans) = fans ∧
  Forall (λ b, b ≠ [] ∧ (length b ≤ BATCH_SIZE)%nat)
         (batches (length fans) fans) ∧
  length (batches (length fans) fans) = ((length fans + 19) `div` 20)%nat.
Proof.
  destruct (batches_spec (length fans) fans) as (Hcat & Hall & Hn); [done|].
  split; [exact Hcat|]. split; [|exact Hn].
  eapply Forall_impl; [exact Hall|]. now intros b (? & ? & _).
Qed.

(** X13.  With a warm cache nothing is asked: when the text of every fan
    hits the cache, a run sends no request and leaves the cache as it is,
    and it returns for each fan, in input order, the cached profile,
    normalised and tagged with the id of the fan. *)
Theorem warm_cache_is_silent (service : nat → list string → LLMOutcome)
    (w : World) (fans : list (string * string)) :
  (∀ q, In q fans → is_Some (cache_lookup (cache w) q.1)) →
  profile_texts service w fans
  = (w, omap (λ q, (λ p, tag p q.2) <$> cache_lookup (cache w) q.1) fans) ∧
  length (profile_texts service w fans).2 = length fans.
Proof.
  intros Hhit. rewrite profile_texts_warm by done. split; [done|].
  cbn [snd]. apply omap_all_Some. intros q Hq.
  destruct (Hhit q Hq) as [p ->]. simpl. eauto.
Qed.

Lemma warm_cache_is_silent_witness :
  let w := {| cache := cache_store ∅ "hello" (placeholder "old"); calls := [] |} in
  profile_texts (λ _ _, CallRaises) w [("hello", "fan1")]
  = (w, [placeholder "fan1"]).
Proof.
  intros w.
  refine (proj1 (warm_cache_is_silent (λ _ _, CallRaises) w [("hello", "fan1")] _)).
  intros q [<-|[]]. vm_compute. eauto.
Defined.

Section profiler_runs.

(** *** The fan ids of the profiles *)

Lemma served_ids (c : gmap string Dict) (batch : list (string * string)) :
  map (λ d, dict_get d "fan_model_id")
      (omap (λ q, (λ p, tag p q.2) <$> cache_lookup c q.1) batch)
  = map (λ q, Some (JStr q.2))
        (filter (λ q, ¬ cache_lookup c q.1 = None) batch).
Proof.
  induction batch as [|[t f] batch IH]; [done|].
  cbn [omap list_omap]. rewrite filter_cons. cbn [fst snd].
  destruct (cache_lookup c t) as [p|] eqn:Hc; cbn [fmap option_fmap option_map].
  - rewrite decide_True by done. cbn [map].
    unfold tag at 1. rewrite dict_get_set. now rewrite IH.
  - rewrite decide_False by (intros H; now apply H). exact IH.
Qed.

Lemma store_new_ids c new_profiles to_query :
  Forall is_object new_profiles →
  map (λ d, dict_get d "fan_model_id") (store_new c new_profiles to_query).1.2
  = map (λ q, Some (JStr q.2)) (take (length new_profiles) to_query).
Proof.
  revert c to_query.
  induction new_profiles as [|prof ps IH]; intros c [|[t f] qs] Hobj; try done.
  apply Forall_cons in Hobj as [Hp Hps]. destruct prof; try done.
  cbn [store_new length take].
  specialize (IH (cache_store c t (tag (normalize_keys items) f)) qs Hps).
  destruct (store_new _ ps qs) as [[c1 appended] raised]. cbn [fst snd map] in *.
  rewrite IH. unfold tag at 1. now rewrite dict_get_set.
Qed.

Lemma empty_objects (texts : list string) :
  Forall is_object (map (λ _, JObj []) texts) ∧
  length (map (λ _ : string, JObj []) texts) = length texts.
Proof.
  split; [|apply length_map].
  induction texts; constructor; [exact I|done].
Qed.

(** What [call_llm_batch] returns for a well-behaved service. *)
Lemma call_llm_batch_well_behaved service n texts :
  well_behaved service →
  match call_llm_batch (service n texts) texts with
  | Some profiles => Forall is_object profiles ∧ length profiles = length texts
  | None => service n texts = CallRaises
  end.
Proof.
  intros Hwb. specialize (Hwb n texts).
  destruct (service n texts); simpl; try done; apply empty_objects.
Qed.

Lemma process_batch_ids service w batch :
  well_behaved service →
  map (λ d, dict_get d "fan_model_id") (process_batch service w batch).2
    ≡ₚ map (λ q, Some (JStr q.2)) batch.
Proof.
  intros Hwb.
  transitivity
    (map (λ q : string * string, Some (JStr q.2))
       (filter (λ q, ¬ cache_lookup (cache w) q.1 = None) batch)
     ++ map (λ q : string * string, Some (JStr q.2))
          (filter (λ q, cache_lookup (cache w) q.1 = None) batch)).
  2: { rewrite <- map_app, Permutation_app_comm.
       apply Permutation_map, filter_app_complement. }
  rewrite process_batch_unfold. cbv zeta.
  destruct (filter (λ q, cache_lookup (cache w) q.1 = None) batch)
    as [|q0 qs] eqn:Hu.
  - cbn [snd map]. now rewrite served_ids, app_nil_r.
  - pose proof (call_llm_batch_well_behaved service (length (calls w))
                  (map fst (q0 :: qs)) Hwb) as Hcall.
    destruct (call_llm_batch _ _) as [ps|].
    + destruct Hcall as [Hobj Hlen]. rewrite length_map in Hlen.
      destruct (store_new_objects (cache w) ps (q0 :: qs) Hobj) as (Hr & _ & _).
      pose proof (store_new_ids (cache w) ps (q0 :: qs) Hobj) as Hids.
      cbn [snd]. rewrite Hr, app_nil_r, map_app, served_ids, Hids.
      now rewrite take_ge by lia.
    + cbn [snd]. rewrite map_app, served_ids, map_map. done.
Qed.

Lemma run_batches_ids service bs w :
  well_behaved service →
  map (λ d, dict_get d "fan_model_id") (run_batches service w bs).2
    ≡ₚ map (λ q, Some (JStr q.2)) (concat bs).
Proof.
  intros Hwb. revert w. induction bs as [|b bs IH]; intros w; [done|].
  cbn [run_batches concat].
  pose proof (process_batch_ids service w b Hwb) as Hb.
  destruct (process_batch service w b) as [w1 p1].
  specialize (IH w1). destruct (run_batches service w1 bs) as [w2 p2].
  cbn [snd] in *. now rewrite !map_app, Hb, IH.
Qed.

Lemma profile_texts_ids service w fans :
  well_behaved service →
  map (λ d, dict_get d "fan_model_id") (profile_texts service w fans).2
    ≡ₚ map (λ q, Some (JStr q.2)) fans.
Proof.
  intros Hwb. unfold profile_texts. rewrite run_batches_ids by done.
  destruct (batches_spec (length fans) fans) as (-> & _ & _); done.
Qed.

(** *** What a run leaves in the cache *)

Lemma process_batch_caches_all service w batch :
  well_behaved service →
  (∀ n texts, service n texts ≠ CallRaises) →
  ∀ q, In q batch → is_Some (cache_lookup (cache (process_batch service w batch).1) q.1).
Proof.
  intros Hwb Hnoraise q Hq.
  destruct (cache_lookup (cache w) q.1) as [p|] eqn:Hc.
  { apply process_batch_keeps_hits. rewrite Hc. eauto. }
  rewrite process_batch_unfold. cbv zeta.
  assert (Hin : In q (filter (λ q, cache_lookup (cache w) q.1 = None) batch))
    by now apply in_filter.
  destruct (filter (λ q, cache_lookup (cache w) q.1 = None) batch)
    as [|q0 qs] eqn:Hu; [destruct Hin|].
  pose proof (call_llm_batch_well_behaved service (length (calls w))
                (map fst (q0 :: qs)) Hwb) as Hcall.
  destruct (call_llm_batch _ _) as [ps|]; [|now apply Hnoraise in Hcall].
  destruct Hcall as [Hobj Hlen]. rewrite length_map in Hlen.
  destruct (store_new_objects (cache w) ps (q0 :: qs) Hobj) as (_ & _ & Hhits).
  cbn [fst cache]. apply Hhits. now rewrite take_ge by lia.
Qed.

Lemma run_batches_caches_all service bs w :
  well_behaved service →
  (∀ n texts, service n texts ≠ CallRaises) →
  ∀ b q, In b bs → In q b →
         is_Some (cache_lookup (cache (run_batches service w bs).1) q.1).
Proof.
  intros Hwb Hnoraise. revert w. induction bs as [|b0 bs IH]; intros w b q Hb Hq;
    [destruct Hb|].
  cbn [run_batches].
  pose proof (process_batch_caches_all service w b0 Hwb Hnoraise) as H0.
  destruct (process_batch service w b0) as [w1 p1]. cbn [fst] in H0.
  pose proof (proj1 (run_batches_later service bs w1)) as Hkeep.
  specialize (IH w1). destruct (run_batches service w1 bs) as [w2 p2].
  cbn [fst] in *. destruct Hb as [->|Hb].
  - apply Hkeep, H0, Hq.
  - now apply (IH b q).
Qed.

(** *** What a run writes *)

Lemma store_new_writes c new_profiles to_query h :
  (store_new c new_profiles to_query).1.1 !! h = c !! h ∨
  ∃ q d, In q to_query ∧ get_hash q.1 = h ∧
         (store_new c new_profiles to_query).1.1 !! h = Some d ∧
         dict_get d "fan_model_id" = Some (JStr q.2).
Proof.
  revert c to_query.
  induction new_profiles as [|prof ps IH]; intros c [|[t f] qs];
    try (now left).
  cbn [store_new]. destruct prof; try (now left).
  specialize (IH (cache_store c t (tag (normalize_keys items) f)) qs).
  destruct (store_new _ ps qs) as [[c1 appended] raised]. cbn [fst] in *.
  destruct IH as [Hsame|(q & d & Hq & Hh & Hc & Hd)].
  - destruct (decide (get_hash t = h)) as [Heq|Hne].
    + right. exists (t, f), (tag (normalize_keys items) f).
      split; [now left|]. split; [done|]. split.
      * rewrite Hsame, <- Heq. apply lookup_insert_eq.
      * unfold tag. apply dict_get_set.
    + left. rewrite Hsame. unfold cache_store, save_cache.
      now apply lookup_insert_ne.
  - right. exists q, d. split; [now right|done].
Qed.

Lemma process_batch_writes service w batch :
  writes_for (cache w) (cache (process_batch service w batch).1) batch.
Proof.
  intros h. rewrite process_batch_unfold. cbv zeta.
  destruct (filter (λ q, cache_lookup (cache w) q.1 = None) batch)
    as [|q0 qs] eqn:Hu; [now left|].
  destruct (call_llm_batch _ _) as [ps|]; [|now left].
  cbn [fst cache].
  destruct (store_new_writes (cache w) ps (q0 :: qs) h)
    as [Hsame|(q & d & Hq & Hh & Hc & Hd)]; [now left|].
  right. exists q, d. rewrite <- Hu in Hq. apply in_filter in Hq as [Hmiss Hq].
  done.
Qed.

Lemma run_batches_writes service bs w :
  writes_for (cache w) (cache (run_batches service w bs).1) (concat bs).
Proof.
  revert w. induction bs as [|b bs IH]; intros w; [now left|].
  cbn [run_batches concat].
  pose proof (process_batch_writes service w b) as H1.
  pose proof (process_batch_keeps_hits service w b) as Hkeep.
  destruct (process_batch service w b) as [w1 p1]. cbn [fst] in *.
  specialize (IH w1). destruct (run_batches service w1 bs) as [w2 p2].
  cbn [fst] in *. intros h.
  destruct (IH h) as [Hsame|(q & d & Hq & Hh & Hmiss & Hc & Hd)].
  - rewrite Hsame.
    destruct (H1 h) as [?|(q & d & Hq & Hh & Hmiss & Hc & Hd)]; [now left|].
    right. exists q, d. repeat split; try done. apply in_app_iff. now left.
  - right. exists q, d. repeat split; try done.
    + apply in_app_iff. now right.
    + destruct (cache_lookup (cache w) q.1) eqn:Hw; [|done].
      destruct (Hkeep q.1) as [p Hp]; [eauto|]. congruence.
Qed.

(** *** The requests of a run *)

Lemma process_batch_requests_bound service w batch :
  ∃ new, calls (process_batch service w batch).1 = calls w ++ new ∧
         (length new ≤ 1)%nat ∧
         ∀ request, In request new →
           request ≠ [] ∧ (length request ≤ length batch)%nat ∧
           ∀ text, In text request →
             (∃ fan_id, In (text, fan_id) batch) ∧
             cache_lookup (cache w) text = None.
Proof.
  rewrite process_batch_unfold. cbv zeta.
  destruct (filter (λ q, cache_lookup (cache w) q.1 = None) batch)
    as [|q0 qs] eqn:Hu.
  - exists []. cbn [fst]. rewrite app_nil_r.
    split; [done|]. split; [simpl; lia|]. now intros.
  - exists [map fst (q0 :: qs)].
    split; [now destruct (call_llm_batch _ _)|]. split; [done|].
    intros request [<-|[]]. split; [done|]. split.
    + rewrite length_map, <- Hu. apply length_filter.
    + intros text Hin. apply in_map_iff in Hin as ([t f] & <- & Hq).
      rewrite <- Hu in Hq. apply in_filter in Hq as [Hmiss Hq]. eauto.
Qed.

Lemma run_batches_requests_bound service bs w :
  ∃ new, calls (run_batches service w bs).1 = calls w ++ new ∧
         (length new ≤ length bs)%nat ∧
         ∀ request, In request new →
           request ≠ [] ∧
           (∃ b, In b bs ∧ (length request ≤ length b)%nat) ∧
           ∀ text, In text request →
             (∃ fan_id, In (text, fan_id) (concat bs)) ∧
             cache_lookup (cache w) text = None.
Proof.
  revert w. induction bs as [|b bs IH]; intros w.
  - exists []. cbn [run_batches fst]. rewrite app_nil_r.
    split; [done|]. split; [done|]. now intros.
  - cbn [run_batches concat].
    destruct (process_batch_requests_bound service w b) as (new1 & Hc1 & Hl1 & Hr1).
    pose proof (process_batch_keeps_hits service w b) as Hkeep.
    destruct (process_batch service w b) as [w1 p1]. cbn [fst] in *.
    destruct (IH w1) as (new2 & Hc2 & Hl2 & Hr2).
    destruct (run_batches service w1 bs) as [w2 p2]. cbn [fst] in *.
    exists (new1 ++ new2). split; [now rewrite Hc2, Hc1, app_assoc|].
    split; [rewrite length_app; simpl; lia|].
    intros request Hin. apply in_app_iff in Hin as [Hin|Hin].
    + destruct (Hr1 _ Hin) as (Hne & Hlen & Htexts).
      split; [done|]. split; [exists b; split; [now left|done]|].
      intros text Ht. destruct (Htexts _ Ht) as [(f & Hf) Hmiss].
      split; [|done]. exists f. apply in_app_iff. now left.
    + destruct (Hr2 _ Hin) as (Hne & (b2 & Hb2 & Hlen) & Htexts).
      split; [done|]. split; [exists b2; split; [now right|done]|].
      intros text Ht. destruct (Htexts _ Ht) as [(f & Hf) Hmiss].
      split; [exists f; apply in_app_iff; now right|].
      destruct (cache_lookup (cache w) text) eqn:Hw; [|done].
      destruct (Hkeep text) as [p Hp]; [eauto|]. congruence.
Qed.

End profiler_runs.

(** X14.  With a service that answers each request it does not fail with
    one object per text, a run returns exactly one profile per fan: the
    [fan_model_id] fields of the output are the fan ids of the input, each
    as often as it was given. *)
Theorem one_profile_per_fan (service : nat → list string → LLMOutcome)
    (w : World) (fans : list (string * string)) :
  well_behaved service →
  map (λ d, dict_get d "fan_model_id") (profile_texts service w fans).2
    ≡ₚ map (λ q, Some (JStr q.2)) fans ∧
  length (profile_texts service w fans).2 = length fans.
Proof.
  intros Hwb. pose proof (profile_texts_ids service w fans Hwb) as Hids.
  split; [exact Hids|].
  apply Permutation_length in Hids. now rewrite !length_map in Hids.
Qed.

Lemma one_profile_per_fan_witness :
  let service := λ (n : nat) (texts : list string),
    if decide (n = 0)%nat then CallRaises
    else Parsed (map (λ _, JObj [("Life events", JStr "moved")]) texts) in
  let fans := [("hello", "fan1"); ("hi", "fan2")] in
  map (λ d, dict_get d "fan_model_id")
      (profile_texts service {| cache := ∅; calls := [] |} fans).2
    ≡ₚ [Some (JStr "fan1"); Some (JStr "fan2")] ∧
  length (profile_texts service {| cache := ∅; calls := [] |} fans).2 = 2%nat.
Proof.
  intros service fans.
  apply (one_profile_per_fan service {| cache := ∅; calls := [] |} fans).
  intros n texts. unfold service. case_decide; [exact I|].
  split; [|apply length_map].
  induction texts; constructor; [exact I|done].
Defined.

(** X15.  After a run in which no request raised and every reply that
    parsed held one object per text, the text of every fan given is in the
    cache; so a second run over the same fans, whatever the service does,
    sends no request, changes nothing in the cache and returns one profile
    per fan. *)
Theorem second_run_is_silent (service : nat → list string → LLMOutcome)
    (w : World) (fans : list (string * string)) :
  well_behaved service →
  (∀ n texts, service n texts ≠ CallRaises) →
  let w1 := (profile_texts service w fans).1 in
  (∀ q, In q fans → is_Some (cache_lookup (cache w1) q.1)) ∧
  (∀ service',
     (profile_texts service' w1 fans).1 = w1 ∧
     length (profile_texts service' w1 fans).2 = length fans).
Proof.
  intros Hwb Hnoraise w1.
  assert (Hall : ∀ q, In q fans → is_Some (cache_lookup (cache w1) q.1)).
  { intros q Hq. subst w1. unfold profile_texts.
    destruct (batches_spec (length fans) fans) as (Hcat & _ & _); [done|].
    rewrite <- Hcat in Hq. apply in_concat in Hq as (b & Hb & Hq).
    now apply (run_batches_caches_all service _ w Hwb Hnoraise b q). }
  split; [exact Hall|]. intros service'.
  rewrite profile_texts_warm by done. split; [done|].
  cbn [snd]. apply omap_all_Some. intros q Hq.
  destruct (Hall q Hq) as [p ->]. simpl. eauto.
Qed.

Lemma second_run_is_silent_witness :
  let service := λ (n : nat) (texts : list string), NoArrayFound in
  let fans := [("hello", "fan1"); ("hi", "fan2")] in
  let w1 := (profile_texts service {| cache := ∅; calls := [] |} fans).1 in
  calls w1 = [["hello"; "hi"]] ∧
  (profile_texts (λ _ _, CallRaises) w1 fans).1 = w1.
Proof.
  intros service fans w1. split; [reflexivity|].
  refine (proj1 (proj2 (second_run_is_silent service
            {| cache := ∅; calls := [] |} fans _ _) (λ _ _, CallRaises))).
  - intros n texts. exact I.
  - intros n texts. discriminate.
Defined.

(** X16.  A run only adds to the cache.  A text that hits the cache before
    the run hits it after; and an entry that differs after the run was
    written for a fan of the run whose text missed the cache before, sits
    under the hash of that text and carries that fan's id. *)
Theorem cache_only_grows (service : nat → list string → LLMOutcome)
    (w : World) (fans : list (string * string)) :
  let w' := (profile_texts service w fans).1 in
  (∀ text, is_Some (cache_lookup (cache w) text) →
           is_Some (cache_lookup (cache w') text)) ∧
  (∀ h, cache w' !! h = cache w !! h ∨
        ∃ q d, In q fans ∧ get_hash q.1 = h ∧ cache_lookup (cache w) q.1 = None ∧
               cache w' !! h = Some d ∧
               dict_get d "fan_model_id" = Some (JStr q.2)).
Proof.
  intros w'. subst w'. unfold profile_texts. split.
  - apply run_batches_later.
  - pose proof (run_batches_writes service (batches (length fans) fans) w) as Hw.
    destruct (batches_spec (length fans) fans) as (Hcat & _ & _); [done|].
    rewrite Hcat in Hw. exact Hw.
Qed.

(** X17.  The requests of a run: at most one per batch, so at most the
    number of fans divided by 20, rounded up; none is empty or carries
    more than 20 texts; and every text sent is the text of a fan of the
    run that missed the cache the run started with. *)
Theorem requests_are_bounded (service : nat → list string → LLMOutcome)
    (w : World) (fans : list (string * string)) :
  ∃ new,
    calls (profile_texts service w fans).1 = calls w ++ new ∧
    (length new ≤ (length fans + 19) `div` 20)%nat ∧
    ∀ request, In request new →
      request ≠ [] ∧ (length request ≤ BATCH_SIZE)%nat ∧
      ∀ text, In text request →
        (∃ fan_id, In (text, fan_id) fans) ∧
        cache_lookup (cache w) text = None.
Proof.
  unfold profile_texts.
  destruct (batches_spec (length fans) fans) as (Hcat & Hall & Hn); [done|].
  destruct (run_batches_requests_bound service (batches (length fans) fans) w)
    as (new & Hcalls & Hlen & Hreq).
  exists new. split; [exact Hcalls|]. split; [now rewrite <- Hn|].
  intros request Hin.
  destruct (Hreq _ Hin) as (Hne & (b & Hb & Hlb) & Htexts).
  split; [done|]. split.
  - rewrite Forall_forall in Hall.
    destruct (Hall b) as (_ & Hb20 & _); [now apply list_elem_of_In|]. lia.
  - intros text Ht. rewrite <- Hcat. now apply Htexts.
Qed.

(** X18.  [profile_fans] profiles each fan-model pair of the log once: the
    ids it works on are the distinct [fan_model_id]s of the log, and with a
    service that answers each request it does not fail with one object per
    text, its output has exactly one row for each. *)
Theorem profile_fans_one_row_per_fan (service : nat → list string → LLMOutcome)
    (w : World) (convos_df : list Event) :
  NoDup (map snd (fan_texts convos_df)) ∧
  (∀ k, In k (map snd (fan_texts convos_df)) ↔
        ∃ e, In e convos_df ∧ fan_model_id e = k) ∧
  (well_behaved service →
   map (λ d, dict_get d "fan_model_id") (profile_fans service w convos_df).2
     ≡ₚ map (λ k, Some (JStr k)) (groupby_keys (map fan_model_id convos_df))).
Proof.
  assert (Hids : map snd (fan_texts convos_df)
                 = groupby_keys (map fan_model_id convos_df)).
  { unfold fan_texts. rewrite map_map. apply map_id. }
  split; [rewrite Hids; apply groupby_keys_NoDup|]. split.
  - intros k. rewrite Hids, groupby_keys_In, in_map_iff.
    split; intros (e & ? & ?); eauto.
  - intros Hwb. unfold profile_fans.
    rewrite profile_texts_ids by done.
    rewrite <- Hids, map_map. done.
Qed.

Lemma profile_fans_one_row_per_fan_witness :
  let service := λ (n : nat) (texts : list string), ParseFails in
  let msg := λ (i : Z) (f t : string),
    {| index := i; fan_id := f; model_id := "m"; timestamp := i;
       message_text := Some t; purchase := false; is_system := false |} in
  let df := [msg 0 "b" "hi"; msg 1 "a" "hello"; msg 2 "b" "there"] in
  fan_texts df = [("hello", "a_m"); ("hi" +:+ String "010" "there", "b_m")] ∧
  map (λ d, dict_get d "fan_model_id")
      (profile_fans service {| cache := ∅; calls := [] |} df).2
    ≡ₚ [Some (JStr "a_m"); Some (JStr "b_m")].
Proof.
  intros service msg df. split; [reflexivity|].
  refine (proj2 (proj2 (profile_fans_one_row_per_fan service
            {| cache := ∅; calls := [] |} df)) _).
  intros n texts. exact I.
Defined.

(** ** Texts and embeddings *)

Section more_embeddings.

Lemma slices_nil {A} fuel size : slices fuel size ([] : list A) = [].
Proof. now destruct fuel. Qed.

Lemma slices_spec {A} (fuel size : nat) (l : list A) :
  (0 < size)%nat → (length l ≤ fuel)%nat →
  concat (slices fuel size l) = l ∧
  Forall (λ b, b ≠ [] ∧ (length b ≤ size)%nat) (slices fuel size l).
Proof.
  intros Hsize. revert l. induction fuel as [|fuel IH]; intros l Hlen.
  - destruct l; [|simpl in Hlen; lia]. split; constructor.
  - destruct l as [|x l]; [split; constructor|].
    cbn [slices].
    destruct (IH (drop size (x :: l))) as (Hcat & Hall).
    { rewrite length_drop. simpl length in *. lia. }
    split.
    + cbn [concat]. rewrite Hcat. apply take_drop.
    + constructor; [|exact Hall].
      split; [destruct size; [lia|done]|]. rewrite length_take. lia.
Qed.

Context {V : Type}.
Variable blank : string → bool.
Variable vo_embed : list string → option (list V).

Lemma embed_batches_per_text (f : string → V) (bs : list (list string)) :
  (∀ b, In b bs → vo_embed b = Some (map f b)) →
  embed_batches vo_embed bs = Some (map f (concat bs)).
Proof.
  induction bs as [|b bs IH]; intros Hf; [done|].
  cbn [embed_batches concat].
  rewrite (Hf b) by now left.
  rewrite IH by (intros b2 Hb2; apply Hf; now right).
  now rewrite map_app.
Qed.

Lemma embed_batches_None (bs : list (list string)) :
  embed_batches vo_embed bs = None ↔ ∃ b, In b bs ∧ vo_embed b = None.
Proof.
  induction bs as [|b bs IH]; cbn [embed_batches].
  - split; [done|]. now intros (b & [] & _).
  - destruct (vo_embed b) as [e|] eqn:He.
    + destruct (embed_batches vo_embed bs) as [es|].
      * split; [done|]. intros (b2 & [<-|Hb2] & Hn); [congruence|].
        assert (Hnone : Some es = None) by (apply IH; eauto). done.
      * split; [|done]. intros _.
        destruct (proj1 IH eq_refl) as (b2 & Hb2 & Hn).
        exists b2. split; [now right|done].
    + split; [|done]. intros _. exists b. split; [now left|done].
Qed.

Lemma embed_batches_length (bs : list (list string)) :
  (∀ b, In b bs → ∃ e, vo_embed b = Some e ∧ length e = length b) →
  ∃ es, embed_batches vo_embed bs = Some es ∧ length es = length (concat bs).
Proof.
  induction bs as [|b bs IH]; intros Hall; [now exists []|].
  cbn [embed_batches concat].
  destruct (Hall b) as (e & -> & He); [now left|].
  destruct IH as (es & -> & Hes); [intros b2 Hb2; apply Hall; now right|].
  exists (e ++ es). split; [done|]. rewrite !length_app. lia.
Qed.

Lemma zip_map_self {A B} (g : A → B) (l : list A) :
  zip l (map g l) = map (λ x, (x, g x)) l.
Proof. induction l as [|x l IH]; [done|]. simpl. now rewrite IH. Qed.

Lemma zip_take {A B} (l : list A) (e : list B) :
  zip (take (length e) l) e = zip l e.
Proof.
  revert e. induction l as [|x l IH]; intros [|y e]; try done.
  simpl. now rewrite IH.
Qed.

Lemma cluster_rows_zip {R} (embeddings : list V) (df : list R) :
  (length embeddings ≤ length df)%nat →
  cluster_rows embeddings df = Some (zip df embeddings).
Proof.
  intros Hlen. unfold cluster_rows. cbv zeta.
  destruct (decide (length df ≠ length embeddings)) as [Hne|Heq].
  - rewrite decide_True by (rewrite length_take; lia).
    now rewrite zip_take.
  - rewrite decide_True; [done|].
    destruct (decide (length df = length embeddings)); [done|now destruct Heq].
Qed.

End more_embeddings.

Lemma generate_per_text {V : Type} (blank : string → bool)
    (vo_embed : list string → option (list V)) (f : string → V)
    (texts : list string) :
  (∀ b, b ≠ [] → (length b ≤ 20)%nat → vo_embed b = Some (map f b)) →
  generate_text_embeddings blank vo_embed texts
  = Some (map f (filter (λ t, blank t = false) texts)).
Proof.
  intros Hf. unfold generate_text_embeddings. cbv zeta.
  set (clean := filter (λ t, blank t = false) texts).
  destruct (slices_spec (length clean) 20 clean) as [Hcat Hall]; [lia|done|].
  rewrite (embed_batches_per_text vo_embed f), Hcat; [done|].
  intros b Hb. rewrite Forall_forall in Hall.
  destruct (Hall b) as [Hne Hlen]; [now apply list_elem_of_In|]. now apply Hf.
Qed.

(** X19.  [generate_text_embeddings] drops the texts that are empty once
    stripped and embeds the others in their order; cutting them into
    batches of 20 does not show in the result: with a service that returns
    one vector per text, the embeddings are those of the texts that are
    left, one by one. *)
Theorem embeddings_of_clean_texts {V : Type} (blank : string → bool)
    (vo_embed : list string → option (list V)) (f : string → V)
    (texts : list string) :
  (∀ b, b ≠ [] → (length b ≤ 20)%nat → vo_embed b = Some (map f b)) →
  generate_text_embeddings blank vo_embed texts
  = Some (map f (filter (λ t, blank t = false) texts)).
Proof. apply generate_per_text. Qed.

Lemma embeddings_of_clean_texts_witness :
  let blank := λ t, forallb Ascii.is_space (list_ascii_of_string t) in
  let vo_embed := λ b : list string, Some (map String.length b) in
  generate_text_embeddings blank vo_embed ["hello"; " "; "hi"; EmptyString; "yes"]
  = Some [5%nat; 2%nat; 3%nat].
Proof.
  intros blank vo_embed.
  exact (embeddings_of_clean_texts blank vo_embed String.length
           ["hello"; " "; "hi"; EmptyString; "yes"] (λ b _ _, eq_refl)).
Defined.

(** X20.  [generate_text_embeddings] fails exactly when the service fails on
    one of its batches; and when the service returns as many vectors as it
    gets texts, there are as many embeddings as texts that are not empty
    once stripped, hence no more than texts. *)
Theorem embeddings_count {V : Type} (blank : string → bool)
    (vo_embed : list string → option (list V)) (texts : list string) :
  let clean := filter (λ t, blank t = false) texts in
  (generate_text_embeddings blank vo_embed texts = None ↔
   ∃ b, In b (slices (length clean) 20 clean) ∧ vo_embed b = None) ∧
  ((∀ b, ∃ e, vo_embed b = Some e ∧ length e = length b) →
   ∃ es, generate_text_embeddings blank vo_embed texts = Some es ∧
         length es = length clean ∧ (length es ≤ length texts)%nat).
Proof.
  intros clean. split; [apply embed_batches_None|].
  intros Hlen. unfold generate_text_embeddings. cbv zeta. fold clean.
  destruct (embed_batches_length vo_embed (slices (length clean) 20 clean))
    as (es & Hes & Hl); [intros b _; apply Hlen|].
  exists es. split; [exact Hes|].
  destruct (slices_spec (length clean) 20 clean) as [Hcat _]; [lia|done|].
  rewrite Hcat in Hl. split; [exact Hl|].
  rewrite Hl. apply length_filter.
Qed.

Lemma embeddings_count_witness :
  let blank := λ t, forallb Ascii.is_space (list_ascii_of_string t) in
  let vo_embed := λ b : list string, Some (map String.length b) in
  ∃ es, generate_text_embeddings blank vo_embed ["hello"; " "; "hi"] = Some es ∧
        length es = 2%nat ∧ (length es ≤ 3)%nat.
Proof.
  intros blank vo_embed.
  apply (proj2 (embeddings_count blank vo_embed ["hello"; " "; "hi"])).
  intros b. exists (map String.length b). split; [done|apply length_map].
Defined.

(** X21.  Method A pairs rows and embeddings by position, the rows taken
    from the table as it is and the embeddings from the texts that are not
    empty once stripped.  With a service that returns one vector per text:
    when no text of the table is empty, every row gets the embedding of its
    own text; when the first empty text is followed by a row whose text is
    not, the row of the empty text gets the embedding of that next row's
    text. *)
Theorem method_A_pairs_by_position {V : Type} (blank : string → bool)
    (vo_embed : list string → option (list V)) (f : string → V)
    (texts_df : list StageText) :
  (∀ b, b ≠ [] → (length b ≤ 20)%nat → vo_embed b = Some (map f b)) →
  method_A blank vo_embed texts_df
  = Some (zip texts_df
            (map f (filter (λ t, blank t = false) (map st_text texts_df)))) ∧
  ((∀ r, In r texts_df → blank (st_text r) = false) →
   method_A blank vo_embed texts_df
   = Some (map (λ r, (r, f (st_text r))) texts_df)) ∧
  (∀ pre b c post,
     texts_df = pre ++ b :: c :: post →
     (∀ r, In r pre → blank (st_text r) = false) →
     blank (st_text b) = true → blank (st_text c) = false →
     ∃ out, method_A blank vo_embed texts_df = Some out ∧
            In (b, f (st_text c)) out).
Proof.
  intros Hf.
  assert (HA : method_A blank vo_embed texts_df
    = Some (zip texts_df
              (map f (filter (λ t, blank t = false) (map st_text texts_df))))).
  { unfold method_A. rewrite (generate_per_text blank vo_embed f) by done.
    apply cluster_rows_zip. rewrite length_map.
    etrans; [apply length_filter|]. now rewrite length_map. }
  split; [exact HA|]. split.
  - intros Hnone. rewrite HA. f_equal.
    rewrite filter_all.
    + rewrite map_map. apply (zip_map_self (λ r, f (st_text r))).
    + intros t Ht. apply in_map_iff in Ht as (r & <- & Hr). now apply Hnone.
  - intros pre b c post -> Hpre Hb Hc. eexists. split; [exact HA|].
    rewrite !map_app, filter_app. cbn [map].
    rewrite filter_all by (intros t Ht; apply in_map_iff in Ht as (r & <- & Hr);
                           now apply Hpre).
    rewrite filter_cons_False by (rewrite Hb; discriminate).
    rewrite filter_cons_True by done.
    rewrite map_app. cbn [map].
    rewrite zip_with_app by now rewrite !length_map.
    apply in_app_iff. right. now left.
Qed.

Lemma method_A_pairs_by_position_witness :
  let blank := λ t, forallb Ascii.is_space (list_ascii_of_string t) in
  let vo_embed := λ b : list string, Some (map String.length b) in
  let row := λ k s t, {| st_fan_model_id := k; st_stage := s; st_text := t |} in
  let texts_df := [row "a_m" stage_1 "hello"; row "a_m" stage_2 EmptyString;
                   row "b_m" stage_1 "hi"; row "c_m" stage_1 "good day";
                   row "d_m" stage_1 "yes"; row "e_m" stage_1 "thanks"] in
  ∃ out, method_A blank vo_embed texts_df = Some out ∧
         In (row "a_m" stage_2 EmptyString, String.length "hi") out.
Proof.
  intros blank vo_embed row texts_df.
  refine (proj2 (proj2 (method_A_pairs_by_position blank vo_embed String.length
            texts_df (λ b _ _, eq_refl)))
          [row "a_m" stage_1 "hello"] (row "a_m" stage_2 EmptyString)
          (row "b_m" stage_1 "hi") _ eq_refl _ eq_refl eq_refl).
  intros r [<-|[]]. reflexivity.
Defined.

Section more_stage_texts.

Lemma join_messages_none (msgs : list (option string)) :
  (∀ m, In m msgs → m = None) → join_messages msgs = EmptyString.
Proof.
  intros Hnone. unfold join_messages.
  assert (Hnil : omap id msgs = []); [|now rewrite Hnil].
  induction msgs as [|m msgs IH]; [done|].
  rewrite (Hnone m) by now left. cbn. apply IH.
  intros m2 Hm2. apply Hnone. now right.
Qed.

Lemma get_stage_texts_keys df :
  map (λ r, (st_fan_model_id r, st_stage r)) (get_stage_texts df)
  = stable_sort pair_le (remove_dups (map (λ r, (fan_model_id r.1, r.2)) df)).
Proof.
  unfold get_stage_texts. rewrite map_map. cbn [st_fan_model_id st_stage].
  erewrite map_ext; [apply map_id|]. now intros [k s].
Qed.

(** Every fan-model pair has a row in stage_1. *)
Lemma some_row_in_stage_1 (df : list Event) (e : Event) :
  In e df → ∃ e1, In (e1, stage_1) (assign_stages df) ∧
                  fan_model_id e1 = fan_model_id e.
Proof.
  intros He.
  destruct (map timestamp (filter (λ e2, purchase e2 = true)
              (filter (λ e2, fan_model_id e2 = fan_model_id e) df)))
    as [|p ps] eqn:Hpts.
  - exists e. split; [|done]. apply assign_stages_In. split; [done|].
    now rewrite Hpts.
  - destruct (foldr_min_spec p ps) as [Hmin _]. rewrite <- Hpts in Hmin.
    apply purchase_times_In in Hmin as (e1 & He1 & Hk & _ & Ht).
    exists e1. split; [|done]. apply assign_stages_In. split; [done|].
    rewrite Hk, Hpts. unfold stage_of. cbv zeta. rewrite Ht.
    now rewrite decide_True.
Qed.

End more_stage_texts.

(** X22.  [get_stage_texts] gives one row for each pair of a fan-model id
    and a stage that occurs in the staged table and for no other pair; the
    text of a pair none of whose rows has a message is empty; and on the
    output of [assign_stages] every fan-model pair of the log has its
    stage_1 row. *)
Theorem stage_texts_one_per_pair (df : list (Event * Stage)) :
  let keys := map (λ r, (st_fan_model_id r, st_stage r)) (get_stage_texts df) in
  NoDup keys ∧
  (∀ k s, In (k, s) keys ↔ ∃ e, In (e, s) df ∧ fan_model_id e = k) ∧
  (∀ r, In r (get_stage_texts df) →
     (∀ e, In (e, st_stage r) df → fan_model_id e = st_fan_model_id r →
           message_text e = None) →
     st_text r = EmptyString) ∧
  (∀ log e, df = assign_stages log → In e log →
     In (fan_model_id e, stage_1) keys).
Proof.
  intros keys. subst keys. rewrite get_stage_texts_keys.
  assert (Hin : ∀ k s,
    In (k, s) (stable_sort pair_le
                 (remove_dups (map (λ r, (fan_model_id r.1, r.2)) df))) ↔
    ∃ e, In (e, s) df ∧ fan_model_id e = k).
  { intros k s. rewrite stable_sort_In, <- list_elem_of_In, elem_of_remove_dups,
      list_elem_of_In, in_map_iff. split.
    - intros ([e s2] & [= <- <-] & Hr). eauto.
    - intros (e & He & <-). now exists (e, s). }
  split; [rewrite stable_sort_perm; apply NoDup_remove_dups|].
  split; [exact Hin|]. split.
  - intros r Hr Hnone. unfold get_stage_texts in Hr.
    apply in_map_iff in Hr as ([k s] & <- & _). cbn [st_text st_stage st_fan_model_id] in *.
    apply join_messages_none. intros m Hm.
    apply in_map_iff in Hm as ([e s2] & <- & He).
    apply in_filter in He as [[= <- <-] He]. now apply Hnone.
  - intros log e -> He. apply Hin.
    destruct (some_row_in_stage_1 log e He) as (e1 & H1 & Hk). eauto.
Qed.

Lemma stage_texts_one_per_pair_witness :
  let msg := λ (i : Z) (t : option string) (p : bool),
    {| index := i; fan_id := "f"; model_id := "m"; timestamp := i;
       message_text := t; purchase := p; is_system := false |} in
  let log := [msg 0 (Some "hello") true; msg 1 None false] in
  get_stage_texts (assign_stages log)
    = [{| st_fan_model_id := "f_m"; st_stage := stage_1; st_text := "hello" |};
       {| st_fan_model_id := "f_m"; st_stage := stage_3; st_text := EmptyString |}] ∧
  In ("f_m", stage_1)
     (map (λ r, (st_fan_model_id r, st_stage r)) (get_stage_texts (assign_stages log))).
Proof.
  intros msg log. split; [reflexivity|].
  exact (proj2 (proj2 (proj2 (stage_texts_one_per_pair (assign_stages log))))
           log (msg 0 (Some "hello") true) eq_refl (or_introl eq_refl)).
Defined.
